(** * Agents and environments: the blind dog in the park

    A shallow embedding of [homework1/BlindDog.ipynb]: the classes [Thing],
    [Agent], [Environment], [Food], [Water], [Park] and [BlindDog], and the
    dog's [program].

    Python objects are references into a store of attributes.  An object is
    identified by a serial number together with its class, which never
    changes after construction; its attributes live in the store and may be
    absent, as a Python attribute may.  The environment's two lists, the
    store, the lines printed and the allocator make up the [world].  Methods
    that change something run in a state-and-exception monad in which a
    raised exception keeps the world as it was when it was raised; methods
    that only look are functions of the world. *)

From Stdlib Require Import ZArith.
From stdpp Require Import base list strings pretty functions.

Open Scope Z_scope.

(** ** Values *)

(** The classes the notebook defines, after its last cell has run. *)
Inductive class := CThing | CAgent | CFood | CWater | CBlindDog.

Global Instance class_eq_dec : EqDecision class.
Proof. solve_decision. Defined.

Definition class_name (c : class) : string :=
  match c with
  | CThing => "Thing"
  | CAgent => "Agent"
  | CFood => "Food"
  | CWater => "Water"
  | CBlindDog => "BlindDog"
  end.

(** [class Agent(Thing)], [class Food(Thing)], [class Water(Thing)],
    [class BlindDog(Agent)]. *)
Definition issubclass (c d : class) : bool :=
  match d, c with
  | CThing, _ => true
  | CAgent, (CAgent | CBlindDog) => true
  | CFood, CFood => true
  | CWater, CWater => true
  | CBlindDog, CBlindDog => true
  | _, _ => false
  end.

(** A reference to an object.  Two references are the same object exactly
    when they are equal: no class defines [__eq__], so [in] and
    [list.remove] compare by identity. *)
Record object := Object { oid : nat; class_of : class }.

Global Instance object_eq_dec : EqDecision object.
Proof. solve_decision. Defined.

Definition isinstance (o : object) (c : class) : bool :=
  issubclass (class_of o) c.
Global Arguments isinstance : simpl never.

(** What a [location] can hold: [None], an integer, or a tuple of integers.
    The integers are the instances of [numbers.Number] here. *)
Inductive value := VNone | VInt (z : Z) | VTuple (zs : list Z).

Global Instance value_eq_dec : EqDecision value.
Proof. solve_decision. Defined.

Definition is_number (v : value) : bool :=
  match v with VInt _ => true | _ => false end.

(** [str(v)], which is also [repr(v)] for these values. *)
Definition str_tuple (zs : list Z) : string :=
  match zs with
  | [] => "()"
  | [z] => "(" +:+ pretty z +:+ ",)"
  | z :: zs' =>
      "(" +:+ pretty z +:+ foldr (fun y s => ", " +:+ pretty y +:+ s) ")" zs'
  end.

Definition str_value (v : value) : string :=
  match v with
  | VNone => "None"
  | VInt z => pretty z
  | VTuple zs => str_tuple zs
  end.

(** [s[1:-1]] *)
Definition slice_1_m1 (s : string) : string :=
  String.substring 1 (String.length s - 2) s.

Definition action := string.

Inductive exn := NotImplementedError | AttributeError | TypeError | ValueError.

Global Instance exn_eq_dec : EqDecision exn.
Proof. solve_decision. Defined.

(** [list.remove(x)]: drops the first occurrence; [None] stands for the
    [ValueError] raised when there is none. *)
Fixpoint list_remove (x : object) (l : list object) : option (list object) :=
  match l with
  | [] => None
  | y :: l' =>
      if decide (y = x) then Some l'
      else match list_remove x l' with
           | Some r => Some (y :: r)
           | None => None
           end
  end.

(** ** The store and the world *)

Section World.
Context {Percept : Type}.

(** The instance attributes of one object; [None] is an attribute that
    was never set.  [name] is the [__name__] slot. *)
Record attrs := Attrs {
  name : option string;
  location : option value;
  alive : option bool;
  bump : option bool;
  holding : option (list object);
  performance : option Z;
  program_slot : option (Percept -> action)
}.

(** A bare [Thing()]: no instance attribute at all. *)
Definition no_attrs : attrs := Attrs None None None None None None None.

Definition with_location (v : value) (a : attrs) : attrs :=
  Attrs (name a) (Some v) (alive a) (bump a) (holding a) (performance a)
        (program_slot a).

Definition with_performance (p : Z) (a : attrs) : attrs :=
  Attrs (name a) (location a) (alive a) (bump a) (holding a) (Some p)
        (program_slot a).

(** [console] is the person at the keyboard: what
    [eval(input('Percept={}; action? '))] gives for each percept. *)
Record world := World {
  store : object -> attrs;
  things : list object;
  agents : list object;
  stdout : list string;
  next_oid : nat;
  console : Percept -> action
}.

Definition with_store (s : object -> attrs) (w : world) : world :=
  World s (things w) (agents w) (stdout w) (next_oid w) (console w).
Definition with_things (l : list object) (w : world) : world :=
  World (store w) l (agents w) (stdout w) (next_oid w) (console w).
Definition with_agents (l : list object) (w : world) : world :=
  World (store w) (things w) l (stdout w) (next_oid w) (console w).
Definition with_stdout (l : list string) (w : world) : world :=
  World (store w) (things w) (agents w) l (next_oid w) (console w).
Definition with_next_oid (n : nat) (w : world) : world :=
  World (store w) (things w) (agents w) (stdout w) n (console w).

(** *** The monad of methods *)

Inductive outcome (A : Type) :=
| Ret (a : A) (w : world)
| Raise (e : exn) (w : world).
Global Arguments Ret {A} a w.
Global Arguments Raise {A} e w.

Definition M (A : Type) : Type := world -> outcome A.

Definition ret {A} (a : A) : M A := fun w => Ret a w.
Definition raise {A} (e : exn) : M A := fun w => Raise e w.
Definition bind {A B} (m : M A) (k : A -> M B) : M B :=
  fun w => match m w with
           | Ret a w' => k a w'
           | Raise e w' => Raise e w'
           end.

(** The world a call leaves behind, however it ended. *)
Definition final {A} (r : outcome A) : world :=
  match r with Ret _ w => w | Raise _ w => w end.

Definition returns {A} (r : outcome A) : bool :=
  match r with Ret _ _ => true | Raise _ _ => false end.

Definition raised {A} (r : outcome A) : option exn :=
  match r with Ret _ _ => None | Raise e _ => Some e end.

Definition get : M world := fun w => Ret w w.
Definition modify (f : world -> world) : M unit := fun w => Ret tt (f w).

(** A method that only looks at the world. *)
Definition query {A} (q : world -> exn + A) : M A :=
  fun w => match q w with inr a => Ret a w | inl e => Raise e w end.

Definition print (s : string) : M unit :=
  modify (fun w => with_stdout (stdout w ++ [s]) w).

Definition set_attrs (o : object) (f : attrs -> attrs) : M unit :=
  modify (fun w => with_store (<[o := f (store w o)]> (store w)) w).
End World.

Global Arguments attrs Percept : clear implicits.
Global Arguments world Percept : clear implicits.
Global Arguments outcome Percept A : clear implicits.
Global Arguments M Percept A : clear implicits.

Declare Scope method_scope.
Delimit Scope method_scope with method.
Notation "x <- c ;; k" := (bind c (fun x => k))
  (at level 100, c at next level, k at level 200, right associativity)
  : method_scope.
Notation "c ;; k" := (bind c (fun _ => k))
  (at level 100, k at level 200, right associativity) : method_scope.
Open Scope method_scope.

(** ** [class Thing] *)
Module Thing.
Section Thing.
Context {Percept : Type}.
Implicit Types (w : world Percept) (self : object).

(** [getattr(self, '__name__', self.__class__.__name__)] *)
Definition label w self : string :=
  match name (store w self) with
  | Some n => n
  | None => class_name (class_of self)
  end.

Definition repr w self : string := "<" +:+ label w self +:+ ">".

(** [hasattr(self, 'alive') and self.alive] *)
Definition is_alive w self : bool :=
  match alive (store w self) with
  | Some b => b
  | None => false
  end.

(** Attribute lookup for [.location]: the instance attribute, else the
    class attribute [location = 1] of [BlindDog], else [AttributeError]. *)
Definition location_of w self : exn + value :=
  match location (store w self) with
  | Some v => inr v
  | None =>
      match class_of self with
      | CBlindDog => inr (VInt 1)
      | _ => inl AttributeError
      end
  end.

(** A new object of a class that has no [__init__] of its own. *)
Definition new (c : class) : M Percept object :=
  w <- get ;;
  let self := Object (next_oid w) c in
  modify (with_next_oid (S (next_oid w))) ;;
  set_attrs self (fun _ => no_attrs) ;;
  ret self.

Definition alive_of w self : exn + bool :=
  match alive (store w self) with
  | Some b => inr b
  | None => inl AttributeError
  end.

Definition program_of w self : exn + (Percept -> action) :=
  match program_slot (store w self) with
  | Some f => inr f
  | None => inl AttributeError
  end.
End Thing.
End Thing.

(** ** [class Agent(Thing)] *)
Module Agent.
Section Agent.
Context {Percept : Type}.

(** [Agent.__init__], run for a new object of class [c]; the argument is
    [Some f] for a callable and [None] for anything else.  The address of
    the new object is the next one the allocator has. *)
Definition init (c : class) (program : option (Percept -> action))
  : M Percept object :=
  w <- get ;;
  let self := Object (next_oid w) c in
  modify (with_next_oid (S (next_oid w))) ;;
  set_attrs self (fun _ =>
    Attrs None None (Some true) (Some false) (Some []) (Some 0) None) ;;
  program <- match program with
             | Some f => ret f
             | None =>
                 print ("Can't find a valid program for " +:+ class_name c
                        +:+ ", falling back to default.") ;;
                 ret (console w)
             end ;;
  set_attrs self (fun a =>
    Attrs (name a) (location a) (alive a) (bump a) (holding a)
          (performance a) (Some program)) ;;
  ret self.

Definition can_grab (self thing : object) : bool := false.
End Agent.
End Agent.

(** ** [class Environment] *)
Module Environment.
Section Environment.
Context {Percept : Type}.
Local Abbreviation world := (world Percept).
Local Abbreviation M := (M Percept).

(** The methods a subclass overrides.  [percept] and [is_done] look at
    the world; the others may change it. *)
Record methods := Methods {
  percept : object -> world -> exn + Percept;
  execute_action : object -> action -> M unit;
  default_location : object -> world -> value;
  exogenous_change : M unit;
  is_done : world -> bool
}.

Variable E : methods.

Definition thing_classes : list class := [].

(** [all(x == y for x, y in zip(xs, ys))] *)
Definition zip_all_eq (xs ys : list Z) : bool :=
  forallb (fun p : Z * Z => bool_decide (p.1 = p.2)) (zip xs ys).

(** The test of the comprehension in [list_things_at], without the class:
    [thing.location == location] for a number, else the zip. *)
Definition at_location (w : world) (location : value) (thing : object)
  : exn + bool :=
  match Thing.location_of w thing with
  | inl e => inl e
  | inr l =>
      if is_number location then inr (bool_decide (l = location))
      else match l, location with
           | VTuple xs, VTuple ys => inr (zip_all_eq xs ys)
           | _, _ => inl TypeError
           end
  end.

Fixpoint select (w : world) (location : value) (tclass : class)
    (l : list object) : exn + list object :=
  match l with
  | [] => inr []
  | thing :: l' =>
      match at_location w location thing with
      | inl e => inl e
      | inr b =>
          match select w location tclass l' with
          | inl e => inl e
          | inr r => inr (if b && isinstance thing tclass
                          then thing :: r else r)
          end
      end
  end.

Definition list_things_at (w : world) (location : value) (tclass : class)
  : exn + list object :=
  select w location tclass (things w).

Definition some_things_at (w : world) (location : value) (tclass : class)
  : exn + bool :=
  match list_things_at w location tclass with
  | inl e => inl e
  | inr l => inr (negb (bool_decide (l = [])))
  end.

(** What an [add_thing] caller passes: a [Thing], or something else,
    callable or not. *)
Inductive argument :=
| AThing (o : object)
| ACallable (f : Percept -> action)
| AOther.

Definition add_thing (thing : argument) (location : value) : M unit :=
  thing <- match thing with
           | AThing o => ret o
           | ACallable f => Agent.init CAgent (Some f)
           | AOther => Agent.init CAgent None
           end ;;
  w <- get ;;
  if bool_decide (thing ∈ things w) then
    print "Can't add the same thing twice"
  else
    set_attrs thing (with_location
      (if bool_decide (location = VNone) then default_location E thing w
       else location)) ;;
    modify (fun w => with_things (things w ++ [thing]) w) ;;
    if isinstance thing CAgent then
      set_attrs thing (with_performance 0) ;;
      modify (fun w => with_agents (agents w ++ [thing]) w)
    else ret tt.

(** [[(thing, thing.location) for thing in self.things]] *)
Fixpoint located (w : world) (l : list object)
  : exn + list (object * value) :=
  match l with
  | [] => inr []
  | thing :: l' =>
      match Thing.location_of w thing with
      | inl e => inl e
      | inr v =>
          match located w l' with
          | inl e => inl e
          | inr r => inr ((thing, v) :: r)
          end
      end
  end.

Fixpoint join (sep : string) (l : list string) : string :=
  match l with
  | [] => ""
  | [s] => s
  | s :: l' => s +:+ sep +:+ join sep l'
  end.

Definition str_pairs (w : world) (l : list (object * value)) : string :=
  "[" +:+ join ", " (map (fun p : object * value =>
            "(" +:+ Thing.repr w p.1 +:+ ", " +:+ str_value p.2 +:+ ")") l)
      +:+ "]".

Definition delete_thing (thing : object) : M unit :=
  w <- get ;;
  match list_remove thing (things w) with
  | Some l => modify (with_things l)
  | None =>
      print "list.remove(x): x not in list" ;;
      print "  in Environment delete_thing" ;;
      loc <- query (fun w => Thing.location_of w thing) ;;
      print ("  Thing to be removed: " +:+ Thing.repr w thing +:+ " at "
             +:+ str_value loc) ;;
      pairs <- query (fun w => located w (things w)) ;;
      print ("  from list: " +:+ str_pairs w pairs)
  end ;;
  w <- get ;;
  if bool_decide (thing ∈ agents w) then
    match list_remove thing (agents w) with
    | Some l => modify (with_agents l)
    | None => raise ValueError
    end
  else ret tt.

(** The first loop of [step]: one action per agent, all of them from the
    same world. *)
Definition decide_one (w : world) (agent : object) : exn + action :=
  match Thing.alive_of w agent with
  | inl e => inl e
  | inr true =>
      match Thing.program_of w agent with
      | inl e => inl e
      | inr program =>
          match percept E agent w with
          | inl e => inl e
          | inr p => inr (program p)
          end
      end
  | inr false => inr ""%string
  end.

Fixpoint decide_all (w : world) (l : list object) : exn + list action :=
  match l with
  | [] => inr []
  | agent :: l' =>
      match decide_one w agent with
      | inl e => inl e
      | inr a =>
          match decide_all w l' with
          | inl e => inl e
          | inr r => inr (a :: r)
          end
      end
  end.

(** The second loop, [for (agent, action) in zip(self.agents, actions)]:
    the iterator over [self.agents] is an index into the list as it is
    when the next pair is asked for. *)
Fixpoint act_loop (i : nat) (actions : list action) : M unit :=
  match actions with
  | [] => ret tt
  | action :: actions' =>
      w <- get ;;
      match agents w !! i with
      | None => ret tt
      | Some agent =>
          execute_action E agent action ;;
          act_loop (S i) actions'
      end
  end.

Definition step : M unit :=
  w <- get ;;
  if is_done E w then ret tt
  else
    actions <- query (fun w => decide_all w (agents w)) ;;
    act_loop 0 actions ;;
    exogenous_change E.

Fixpoint run (steps : nat) : M unit :=
  match steps with
  | O => ret tt
  | S steps' =>
      w <- get ;;
      if is_done E w then ret tt
      else step ;; run steps'
  end.
End Environment.

Global Arguments methods Percept : clear implicits.

(** The class as written, with nothing overridden. *)
Module Base.
Section Base.
Context {Percept : Type}.

Definition percept (agent : object) (w : world Percept) : exn + Percept :=
  inl NotImplementedError.

Definition execute_action (agent : object) (a : action) : M Percept unit :=
  raise NotImplementedError.

Definition default_location (thing : object) (w : world Percept) : value :=
  VNone.

Definition exogenous_change : M Percept unit := ret tt.

Definition is_done (w : world Percept) : bool :=
  negb (existsb (Thing.is_alive w) (agents w)).

Definition cls : methods Percept :=
  Methods percept execute_action default_location exogenous_change is_done.
End Base.
End Base.

(** [Environment()]: both lists empty. *)
Definition init {Percept} (w : world Percept) : world Percept :=
with_agents [] (with_things [] w).
End Environment.

(** ** [class BlindDog(Agent)], as redefined before the dog's program *)
Module BlindDog.
Local Abbreviation M := (M (list object)).

(** Calling one of these methods on an object of another class is an
    [AttributeError]: only [BlindDog] has them.  [self.location += 1]
    needs an integer. *)
Definition movedown (self : object) : M unit :=
  match class_of self with
  | CBlindDog =>
      l <- query (fun w => Thing.location_of w self) ;;
      match l with
      | VInt n => set_attrs self (with_location (VInt (n + 1)))
      | _ => raise TypeError
      end
  | _ => raise AttributeError
  end.

Definition eat (self thing : object) : M bool :=
  match class_of self with
  | CBlindDog => ret (isinstance thing CFood)
  | _ => raise AttributeError
  end.

Definition drink (self thing : object) : M bool :=
  match class_of self with
  | CBlindDog => ret (isinstance thing CWater)
  | _ => raise AttributeError
  end.
End BlindDog.

(** ** [class Park(Environment)] *)
Module Park.
Local Abbreviation world := (world (list object)).
Local Abbreviation M := (M (list object)).

Definition percept (agent : object) (w : world) : exn + list object :=
  match Thing.location_of w agent with
  | inl e => inl e
  | inr l => Environment.list_things_at w l CThing
  end.

Definition execute_action (agent : object) (action : action) : M unit :=
  if decide (action = "move down") then
    w <- get ;;
    loc <- query (fun w => Thing.location_of w agent) ;;
    print (slice_1_m1 (Thing.repr w agent) +:+ " decided to " +:+ action
           +:+ " at location: " +:+ str_value loc) ;;
    BlindDog.movedown agent
  else if decide (action = "eat") then
    loc <- query (fun w => Thing.location_of w agent) ;;
    items <- query (fun w => Environment.list_things_at w loc CFood) ;;
    match items with
    | [] => ret tt
    | item :: _ =>
        ok <- BlindDog.eat agent item ;;
        if ok then
          w <- get ;;
          loc <- query (fun w => Thing.location_of w agent) ;;
          print (slice_1_m1 (Thing.repr w agent) +:+ " ate "
                 +:+ slice_1_m1 (Thing.repr w item) +:+ " at location: "
                 +:+ str_value loc) ;;
          Environment.delete_thing item
        else ret tt
    end
  else if decide (action = "drink") then
    loc <- query (fun w => Thing.location_of w agent) ;;
    items <- query (fun w => Environment.list_things_at w loc CWater) ;;
    match items with
    | [] => ret tt
    | item :: _ =>
        ok <- BlindDog.drink agent item ;;
        if ok then
          w <- get ;;
          loc <- query (fun w => Thing.location_of w agent) ;;
          print (slice_1_m1 (Thing.repr w agent) +:+ " drank "
                 +:+ slice_1_m1 (Thing.repr w item) +:+ " at location: "
                 +:+ str_value loc) ;;
          Environment.delete_thing item
        else ret tt
    end
  else ret tt.

Definition is_done (w : world) : bool :=
  let no_edibles :=
    negb (existsb (fun thing => isinstance thing CFood
                                || isinstance thing CWater) (things w)) in
  let dead_agents := negb (existsb (Thing.is_alive w) (agents w)) in
  dead_agents || no_edibles.

Definition cls : Environment.methods (list object) :=
  Environment.Methods percept execute_action
    Environment.Base.default_location Environment.Base.exogenous_change
    is_done.
End Park.

(** ** The dog's program *)
Fixpoint program (percepts : list object) : action :=
  match percepts with
  | [] => "move down"
  | p :: percepts' =>
      if isinstance p CFood then "eat"
      else if isinstance p CWater then "drink"
      else program percepts'
  end.

Definition is_food (p : object) : bool := isinstance p CFood.
Definition is_water (p : object) : bool := isinstance p CWater.

(** ** The notebook's run *)
Module Scenario.
(** A world in which nothing has been made yet. *)
Definition nothing (console : list object -> action) : world (list object) :=
  World (fun _ => no_attrs) [] [] [] 0 console.

(** [park = Park(); dog = BlindDog(program); dogfood = Food();
    water = Water(); park.add_thing(dog, 1); park.add_thing(dogfood, 5);
    park.add_thing(water, 7)] *)
Definition setup : M (list object) (object * object * object) :=
  modify Environment.init ;;
  dog <- Agent.init CBlindDog (Some program) ;;
  dogfood <- Thing.new CFood ;;
  water <- Thing.new CWater ;;
  Environment.add_thing Park.cls (Environment.AThing dog) (VInt 1) ;;
  Environment.add_thing Park.cls (Environment.AThing dogfood) (VInt 5) ;;
  Environment.add_thing Park.cls (Environment.AThing water) (VInt 7) ;;
  ret (dog, dogfood, water).

Definition dog := Object 0 CBlindDog.
Definition dogfood := Object 1 CFood.
Definition water := Object 2 CWater.

Definition park (console : list object -> action) : world (list object) :=
  final (setup (nothing console)).

(** The same park with the dog added by [park.add_thing(dog)], no
    location given. *)
Definition stray : world (list object) :=
  final ((modify Environment.init ;;
          dog <- Agent.init CBlindDog (Some program) ;;
          Environment.add_thing Park.cls (Environment.AThing dog) VNone)
         (nothing (fun _ => ""%string))).

(** The park after [crumb = Food()], which is put nowhere. *)
Definition crumb := Object 3 CFood.
Definition park_with_crumb : world (list object) :=
  final (Thing.new CFood (park (fun _ => ""%string))).

(** The park after [n] ticks. *)
Definition tick (console : list object -> action) (n : nat)
  : world (list object) :=
  Nat.iter n (fun w => final (Environment.step Park.cls w)) (park console).
End Scenario.

(** ** The tick as the specification words it *)
Module Protocol.
Section Protocol.
Context {Percept : Type}.
Variable E : Environment.methods Percept.

(** [execute_action(agent, action)] for each pair, in order. *)
Fixpoint act_each (pairs : list (object * action)) : M Percept unit :=
  match pairs with
  | [] => ret tt
  | (agent, action) :: pairs' =>
      Environment.execute_action E agent action ;; act_each pairs'
  end.

(** The action the specification gives [agent] in the world [w]:
    [agent.program(percept(agent))] if its [alive] flag is true, the empty
    action if it is false. *)
Definition decided (w : world Percept) (agent : object) (a : action) : Prop :=
  match Thing.alive_of w agent with
  | inr true =>
      exists program p,
        Thing.program_of w agent = inr program /\
        Environment.percept E agent w = inr p /\ a = program p
  | inr false => a = ""%string
  | inl _ => False
  end.

(** Nothing if the environment is done.  Otherwise an action for every
    agent of the list as it is when the tick starts, all computed in the
    world of that moment; then each agent of that list with its own
    action, in the order of the list; then [exogenous_change] once. *)
Definition two_phase_step : M Percept unit :=
  fun w =>
    if Environment.is_done E w then Ret tt w
    else
      match Environment.decide_all E w (agents w) with
      | inl e => Raise e w
      | inr actions =>
          (act_each (zip (agents w) actions) ;;
           Environment.exogenous_change E) w
      end.
End Protocol.
End Protocol.

(** ** Histories of [add_thing] and [delete_thing] calls *)
Module History.
Section History.
Context {Percept : Type}.
Variable E : Environment.methods Percept.

Inductive call :=
| Add (thing : Environment.argument (Percept := Percept)) (location : value)
| Delete (thing : object).

Definition perform (c : call) : M Percept unit :=
  match c with
  | Add thing location => Environment.add_thing E thing location
  | Delete thing => Environment.delete_thing thing
  end.

(** The world after the calls, one after the other, whether a call
    returned or raised. *)
Definition after (calls : list call) (w : world Percept) : world Percept :=
  foldl (fun w c => final (perform c w)) w calls.
End History.
End History.

(** The environment after construction and any number of calls keeps its
    two lists free of repetitions, the agents among the things. *)
Definition tidy {Percept} (w : world Percept) : Prop :=
  NoDup (things w) /\ NoDup (agents w) /\ agents w ⊆ things w.

(** Every thing in the environment has been given a location, as
    [add_thing] does. *)
Definition placed {Percept} (w : world Percept) : Prop :=
  forall t, t ∈ things w -> is_Some (location (store w t)).

(** Only instances of [Agent] are in [agents], as [add_thing] has it. *)
Definition agents_are_agents {Percept} (w : world Percept) : Prop :=
  forall a, a ∈ agents w -> isinstance a CAgent = true.

(** ** An environment whose agents can leave *)
Module Leaver.
Local Abbreviation M := (M unit).

(** An agent's action is reported; the action ["leave"] takes the agent
    out of the environment with [delete_thing]. *)
Definition execute_action (agent : object) (action : action) : M unit :=
  print (pretty (oid agent) +:+ " " +:+ action) ;;
  if decide (action = "leave") then Environment.delete_thing agent
  else ret tt.

Definition cls : Environment.methods unit :=
  Environment.Methods (fun _ _ => inr tt) execute_action
    Environment.Base.default_location Environment.Base.exogenous_change
    Environment.Base.is_done.

Definition nothing : world unit :=
  World (fun _ => no_attrs) [] [] [] 0 (fun _ => ""%string).

(** Three agents: the first leaves, the others sit and bark. *)
Definition setup : M unit :=
  modify Environment.init ;;
  Environment.add_thing cls (Environment.ACallable (fun _ => "leave"%string)) (VInt 0) ;;
  Environment.add_thing cls (Environment.ACallable (fun _ => "sit"%string)) (VInt 0) ;;
  Environment.add_thing cls (Environment.ACallable (fun _ => "bark"%string)) (VInt 0).

Definition yard : world unit := final (setup nothing).
End Leaver.

(** ** The states of a park in which a dog has been placed *)
Module Roaming.
(** The location of the dog [d] is the integer [n]. *)
Definition home (d : object) (w : world (list object)) (n : Z) : Prop :=
  location (store w d) = Some (VInt n).

(** [d] is put into the park at an integer position.  From then on
    anything is added, with [d] itself added again only while it is still
    in the park, where the call is refused, or at an integer position by
    the first rule; anything is deleted, [d] too; actions are executed and
    the park is stepped and run. *)
Inductive roams (d : object) : world (list object) -> Prop :=
| roams_placed w z :
    d ∉ things w ->
    roams d (final (Environment.add_thing Park.cls (Environment.AThing d) (VInt z) w))
| roams_add w thing location :
    roams d w ->
    (thing = Environment.AThing d -> d ∈ things w) ->
    roams d (final (Environment.add_thing Park.cls thing location w))
| roams_delete w t :
    roams d w ->
    roams d (final (Environment.delete_thing t w))
| roams_act w agent action :
    roams d w ->
    roams d (final (Park.execute_action agent action w))
| roams_step w :
    roams d w ->
    roams d (final (Environment.step Park.cls w))
| roams_run w steps :
    roams d w ->
    roams d (final (Environment.run Park.cls steps w)).
End Roaming.

(** The park in which the dog was added with no location, and a food at
    5 so that the park is not done. *)
Definition stray_park : world (list object) :=
  final ((crumb <- Thing.new CFood ;;
          Environment.add_thing Park.cls (Environment.AThing crumb) (VInt 5))
         Scenario.stray).

(** A new park, with the dog and a food made and neither yet added. *)
Definition small_park : world (list object) :=
  final ((modify Environment.init ;;
          dog <- Agent.init CBlindDog (Some program) ;;
          dogfood <- Thing.new CFood ;;
          ret tt)
         (Scenario.nothing (fun _ => ""%string))).

(** A console at which nobody types anything but the empty action. *)
Definition quiet {Percept} : Percept -> action := fun _ => ""%string.

(** ** What an action does to the park *)

(** The three things a known action can do: move the agent down, take a
    [Food] or a [Water] out, or nothing (a raise included). *)
Inductive effect (agent : object) (a : action)
    (w w' : world (list object)) : Prop :=
| effect_none :
    store w' = store w -> things w' = things w -> agents w' = agents w ->
    effect agent a w w'
| effect_moved k :
    a = "move down"%string -> class_of agent = CBlindDog ->
    Thing.location_of w agent = inr (VInt k) ->
    store w' = <[agent := with_location (VInt (k + 1)) (store w agent)]>
                 (store w) ->
    things w' = things w -> agents w' = agents w ->
    effect agent a w w'
| effect_consumed item w1 :
    a <> "move down"%string ->
    isinstance item CFood || isinstance item CWater = true ->
    store w1 = store w -> things w1 = things w -> agents w1 = agents w ->
    w' = final (Environment.delete_thing item w1) ->
    effect agent a w w'.
Ltac unfold_methods :=
  unfold bind, ret, raise, get, modify, query, print, set_attrs in *.

(** Membership in a list that computes, case by case. *)
Ltac enumerate H tac :=
  vm_compute in H;
  repeat (apply elem_of_cons in H as [->|H]; [tac|]);
  try (exfalso; apply elem_of_nil in H; exact H).

Ltac tidy_by_computing :=
  unfold tidy; split_and!;
  [ apply (bool_decide_unpack _); vm_compute; exact I
  | apply (bool_decide_unpack _); vm_compute; exact I
  | let x := fresh in let Hx := fresh in
    intros x Hx;
    enumerate Hx ltac:(apply (bool_decide_unpack _); vm_compute; exact I) ].

(** ** Notions for the further properties *)

(** The world after [k] calls of [step], returned from or not. *)
Fixpoint ticks {Percept} (E : Environment.methods Percept) (k : nat)
    (w : world Percept) : world Percept :=
  match k with
  | O => w
  | S k' => ticks E k' (final (Environment.step E w))
  end.

(** Every agent of the environment went through [Agent.__init__]: it has
    its [alive] flag and its [program]. *)
Definition constructed {Percept} (w : world Percept) : Prop :=
  forall a, a ∈ agents w ->
    is_Some (alive (store w a)) /\ is_Some (program_slot (store w a)).

(** Two tuples agree as far as the shorter one goes. *)
Definition agree (xs ys : list Z) : Prop :=
  take (length ys) xs = take (length xs) ys.

Global Instance agree_dec xs ys : Decision (agree xs ys).
Proof. unfold agree. apply _. Defined.

(** [thing] is at a tuple that agrees with [ys]. *)
Definition tuple_match {Percept} (w : world Percept) (ys : list Z)
    (thing : object) : bool :=
  match Thing.location_of w thing with
  | inr (VTuple xs) => bool_decide (agree xs ys)
  | _ => false
  end.

Definition edible (thing : object) : bool :=
  isinstance thing CFood || isinstance thing CWater.

(** Nothing edible is at the integer position [n]. *)
Definition clear_at (w : world (list object)) (n : Z) : Prop :=
  forall t, t ∈ things w -> Thing.location_of w t = inr (VInt n) ->
            edible t = false.

(** A park whose only agent is the live blind dog [d], running the dog's
    [program] at the integer position [n], with something edible left. *)
Record lone_dog (d : object) (w : world (list object)) (n : Z) : Prop := {
  lone_class : class_of d = CBlindDog;
  lone_agents : agents w = [d];
  lone_in : d ∈ things w;
  lone_alive : alive (store w d) = Some true;
  lone_program : program_slot (store w d) = Some program;
  lone_placed : placed w;
  lone_location : location (store w d) = Some (VInt n);
  lone_not_done : Park.is_done w = false
}.

(** What a park's tick leaves alone: the list of agents, every flag,
    score, name and program; it adds no thing and takes out only what is
    edible. *)
Record undisturbed (w w' : world (list object)) : Prop := {
  same_agents : agents w' = agents w;
  no_new_thing : forall x, x ∈ things w' -> x ∈ things w;
  only_edible_gone : forall x, x ∈ things w -> x ∈ things w' \/ edible x = true;
  same_alive : forall x, alive (store w' x) = alive (store w x);
  same_performance : forall x, performance (store w' x) = performance (store w x);
  same_program : forall x, program_slot (store w' x) = program_slot (store w x);
  same_name : forall x, name (store w' x) = name (store w x)
}.

(** Two things at tuple locations, and nothing else. *)
Definition grid : world unit :=
  final ((modify Environment.init ;;
          a <- Thing.new CFood ;;
          b <- Thing.new CWater ;;
          Environment.add_thing Environment.Base.cls (Environment.AThing a)
            (VTuple [1; 2]) ;;
          Environment.add_thing Environment.Base.cls (Environment.AThing b)
            (VTuple [1; 3]))
         (World (fun _ => no_attrs) [] [] [] 0 (fun _ => ""%string))).

(** A park in which a bare program was added at position 3. *)
Definition park_with_wrapped : world (list object) :=
  final ((modify Environment.init ;;
          Environment.add_thing Park.cls (Environment.ACallable program)
            (VInt 3))
         (Scenario.nothing (fun _ => ""%string))).

(** * Properties *)

(** ** [list.remove] *)

Lemma list_remove_None x l : list_remove x l = None <-> x ∉ l.
Proof.
  induction l as [|y l IH]; simpl.
  - split; [intros _; apply not_elem_of_nil | done].
  - destruct (decide (y = x)) as [->|Hne].
    + split; [done | intros H; destruct H; left].
    + destruct (list_remove x l) as [r|]; rewrite not_elem_of_cons.
      * split; [done | intros [_ H]; by apply IH in H].
      * split; [intros _; split; [congruence | by apply IH] | done].
Qed.

Lemma list_remove_Some x l r :
  list_remove x l = Some r ->
  exists l1 l2, l = l1 ++ x :: l2 /\ r = l1 ++ l2 /\ x ∉ l1.
Proof.
  revert r; induction l as [|y l IH]; simpl; intros r H; [done|].
  destruct (decide (y = x)) as [->|Hne].
  - exists [], l. injection H as <-. split_and!; [done | done | apply not_elem_of_nil].
  - destruct (list_remove x l) as [r'|]; [|done].
    injection H as <-. destruct (IH r' eq_refl) as (l1 & l2 & -> & -> & Hx).
    exists (y :: l1), l2. split_and!; [done | done |].
    rewrite not_elem_of_cons. split; [congruence | done].
Qed.

Lemma list_remove_length x l r :
  list_remove x l = Some r -> length l = S (length r).
Proof.
  intros H. destruct (list_remove_Some _ _ _ H) as (l1 & l2 & -> & -> & _).
  rewrite !length_app. simpl. lia.
Qed.

Lemma list_remove_NoDup x l r :
  list_remove x l = Some r -> NoDup l -> NoDup r /\ x ∉ r.
Proof.
  intros H Hl. destruct (list_remove_Some _ _ _ H) as (l1 & l2 & -> & -> & Hx).
  apply list.NoDup_app in Hl as (H1 & H12 & H2).
  apply list.NoDup_cons in H2 as [Hx2 H2]. split.
  - apply list.NoDup_app. split_and!; [done | | done].
    intros y Hy Hy2. apply (H12 y Hy). by right.
  - rewrite not_elem_of_app. done.
Qed.

Lemma list_remove_elem_of x l r y :
  list_remove x l = Some r -> y ∈ r -> y ∈ l.
Proof.
  intros H. destruct (list_remove_Some _ _ _ H) as (l1 & l2 & -> & -> & _).
  rewrite !elem_of_app, elem_of_cons. tauto.
Qed.

Lemma list_remove_other x l r y :
  list_remove x l = Some r -> y ∈ l -> y <> x -> y ∈ r.
Proof.
  intros H. destruct (list_remove_Some _ _ _ H) as (l1 & l2 & -> & -> & _).
  rewrite !elem_of_app, elem_of_cons. tauto.
Qed.

(** ** The dog's program *)

(** C2, as amended.  The program answers for the first element of the
    percept list that is a [Food] or a [Water]: ["eat"] if that element is a
    [Food], ["drink"] if it is a [Water]; it answers ["move down"] when no
    element is either.  With both in the list, the one that comes first
    decides. *)
Theorem program_first_match (percepts : list object) :
  program percepts =
    match List.find (fun p => is_food p || is_water p) percepts with
    | Some p => if is_food p then "eat"%string else "drink"%string
    | None => "move down"%string
    end.
Proof.
  induction percepts as [|[n c] percepts IH]; [reflexivity|].
  destruct c; first [reflexivity | exact IH].
Qed.

(** C2, as stated, fails: a [Water] felt before a [Food] makes the dog
    drink, although a [Food] is in the list. *)
Lemma program_water_before_food :
  let percepts := [Scenario.water; Scenario.dogfood] in
  existsb is_food percepts = true /\
  program percepts = "drink"%string /\
  program percepts <> "eat"%string.
Proof. split_and!; [reflexivity | reflexivity | discriminate]. Qed.

(** ** [Park.execute_action] on an action it does not know *)

(** C10.  An action other than ["move down"], ["eat"] and ["drink"] returns
    at once and leaves the whole world as it was: both lists, every
    attribute of every object, and the output. *)
Theorem execute_action_unknown (agent : object) (a : action)
    (w : world (list object)) :
  a <> "move down"%string -> a <> "eat"%string -> a <> "drink"%string ->
  Park.execute_action agent a w = Ret tt w.
Proof.
  intros Hm He Hd. unfold Park.execute_action.
  destruct (decide (a = "move down"%string)); [done|].
  destruct (decide (a = "eat"%string)); [done|].
  destruct (decide (a = "drink"%string)); [done|].
  reflexivity.
Qed.

Lemma execute_action_unknown_witness :
  Park.execute_action Scenario.dog "" (Scenario.park quiet)
  = Ret tt (Scenario.park quiet).
Proof.
  apply (execute_action_unknown Scenario.dog "" (Scenario.park quiet));
    discriminate.
Defined.

(** ** [add_thing] *)

Section AddThing.
Context {Percept : Type}.
Variable E : Environment.methods Percept.
Implicit Types (w : world Percept).

(** C7.  Adding a thing that is already in [things] only prints the
    refusal: [things], [agents] and every attribute of every object,
    the thing's location and performance among them, stay as they are. *)
Theorem add_thing_twice w (t : object) (loc : value) :
  t ∈ things w ->
  exists w',
    Environment.add_thing E (Environment.AThing t) loc w = Ret tt w' /\
    things w' = things w /\ agents w' = agents w /\
    length (things w') = length (things w) /\
    store w' = store w /\
    stdout w' = stdout w ++ ["Can't add the same thing twice"%string].
Proof.
  intros Hin. eexists. split.
  - unfold Environment.add_thing, bind, ret, get. simpl.
    rewrite bool_decide_eq_true_2 by done. reflexivity.
  - simpl. done.
Qed.

(** C5.  Adding an agent that is not yet in [things], with a location
    that is not [None], returns with the agent in [things] and in
    [agents], its performance 0 and its location the one given. *)
Theorem add_thing_agent w (a : object) (loc : value) :
  isinstance a CAgent = true -> a ∉ things w -> loc <> VNone ->
  exists w',
    Environment.add_thing E (Environment.AThing a) loc w = Ret tt w' /\
    a ∈ things w' /\ a ∈ agents w' /\
    performance (store w' a) = Some 0 /\
    location (store w' a) = Some loc.
Proof.
  intros Ha Hnin Hloc. eexists. split.
  - unfold Environment.add_thing, bind, ret, get, set_attrs, modify.
    cbn -[isinstance].
    rewrite bool_decide_eq_false_2 by done.
    rewrite (bool_decide_eq_false_2 (loc = VNone)) by done.
    rewrite Ha. reflexivity.
  - simpl. rewrite !fn_lookup_insert. simpl.
    split_and!; try reflexivity; apply elem_of_app; right; by left.
Qed.
End AddThing.

Lemma add_thing_twice_witness :
  exists w',
    Environment.add_thing Park.cls (Environment.AThing Scenario.dog)
      (VInt 9) (Scenario.park quiet) = Ret tt w' /\
    things w' = things (Scenario.park quiet) /\
    agents w' = agents (Scenario.park quiet) /\
    length (things w') = length (things (Scenario.park quiet)) /\
    store w' = store (Scenario.park quiet) /\
    stdout w' = stdout (Scenario.park quiet)
                ++ ["Can't add the same thing twice"%string].
Proof.
  apply (add_thing_twice Park.cls (Scenario.park quiet) Scenario.dog (VInt 9)).
  vm_compute. by left.
Defined.

Lemma add_thing_agent_witness :
  exists w',
    Environment.add_thing Park.cls (Environment.AThing Scenario.dog)
      (VInt 1) (Scenario.nothing quiet) = Ret tt w' /\
    Scenario.dog ∈ things w' /\ Scenario.dog ∈ agents w' /\
    performance (store w' Scenario.dog) = Some 0 /\
    location (store w' Scenario.dog) = Some (VInt 1).
Proof.
  apply (add_thing_agent Park.cls (Scenario.nothing quiet) Scenario.dog
           (VInt 1)).
  - reflexivity.
  - simpl. apply not_elem_of_nil.
  - discriminate.
Defined.

(** ** The two lists under [add_thing] and [delete_thing] *)

(** What the look-ups read is the store. *)
Section Reads.
Context {Percept : Type}.
Implicit Types (w : world Percept).

Lemma location_of_ext w1 w2 t :
  store w1 = store w2 -> Thing.location_of w1 t = Thing.location_of w2 t.
Proof. unfold Thing.location_of. by intros ->. Qed.

Lemma located_ext w1 w2 l :
  store w1 = store w2 -> Environment.located w1 l = Environment.located w2 l.
Proof.
  intros Hs. induction l as [|t l IH]; simpl; [done|].
  by rewrite (location_of_ext w1 w2 t Hs), IH.
Qed.

Lemma at_location_ext w1 w2 loc t :
  store w1 = store w2 ->
  Environment.at_location w1 loc t = Environment.at_location w2 loc t.
Proof.
  intros Hs. unfold Environment.at_location.
  by rewrite (location_of_ext w1 w2 t Hs).
Qed.

Lemma select_ext w1 w2 loc c l :
  store w1 = store w2 ->
  Environment.select w1 loc c l = Environment.select w2 loc c l.
Proof.
  intros Hs. induction l as [|t l IH]; simpl; [done|].
  by rewrite (at_location_ext w1 w2 loc t Hs), IH.
Qed.
End Reads.

Section Lists.
Context {Percept : Type}.
Variable E : Environment.methods Percept.
Implicit Types (w : world Percept).

Lemma init_tidy w : tidy (Environment.init w).
Proof. repeat split; simpl; [constructor | constructor | ]. by intros x Hx. Qed.

(** The constructor returns the next object and touches neither list. *)
Lemma Agent_init_returns c program w :
  exists w', Agent.init c program w = Ret (Object (next_oid w) c) w' /\
             things w' = things w /\ agents w' = agents w.
Proof.
  unfold Agent.init. unfold_methods. destruct program; simpl; eauto.
Qed.

(** What [add_thing] does once its argument is a [Thing]. *)
Lemma add_thing_lists w (o : object) (loc : value) w' :
  w' = final (Environment.add_thing E (Environment.AThing o) loc w) ->
  (o ∈ things w /\ things w' = things w /\ agents w' = agents w) \/
  ((o ∉ things w) /\ things w' = things w ++ [o] /\
   agents w' = if isinstance o CAgent then agents w ++ [o] else agents w).
Proof.
  intros ->. unfold Environment.add_thing. unfold_methods.
  cbn -[isinstance].
  case_bool_decide as Hin; cbn -[isinstance].
  - left. done.
  - right. destruct (isinstance o CAgent); done.
Qed.

Lemma add_thing_object_tidy w (o : object) (loc : value) :
  tidy w -> tidy (final (Environment.add_thing E (Environment.AThing o) loc w)).
Proof.
  intros (Ht & Ha & Hsub). unfold tidy.
  destruct (add_thing_lists w o loc _ eq_refl)
    as [(_ & -> & ->)|(Hnin & -> & ->)]; [done|].
  assert (o ∉ agents w) by (intros H; by apply Hnin, Hsub).
  repeat split.
  - apply list.NoDup_app. split_and!; [done | | apply NoDup_singleton].
    intros x Hx Hx'. apply list_elem_of_singleton in Hx' as ->. done.
  - destruct (isinstance o CAgent); [|done].
    apply list.NoDup_app. split_and!; [done | | apply NoDup_singleton].
    intros x Hx Hx'. apply list_elem_of_singleton in Hx' as ->. done.
  - destruct (isinstance o CAgent); intros x Hx.
    + apply elem_of_app in Hx as [Hx|Hx]; apply elem_of_app; [left|right];
        [by apply Hsub | done].
    + apply elem_of_app. left. by apply Hsub.
Qed.

(** A bare program is wrapped into a new [Agent], which is then added. *)
Lemma add_thing_wrap w (program : option (Percept -> action)) (loc : value) :
  let arg := match program with
             | Some f => Environment.ACallable f
             | None => Environment.AOther
             end in
  Environment.add_thing E arg loc w =
  Environment.add_thing E (Environment.AThing (Object (next_oid w) CAgent))
    loc (final (Agent.init CAgent program w)).
Proof.
  destruct (Agent_init_returns CAgent program w) as (w' & Hinit & _).
  destruct program; unfold Environment.add_thing at 1;
    unfold bind at 1; rewrite Hinit; reflexivity.
Qed.

Lemma add_thing_tidy w (arg : Environment.argument) (loc : value) :
  tidy w -> tidy (final (Environment.add_thing E arg loc w)).
Proof.
  intros Hw. destruct arg as [o|f|].
  - by apply add_thing_object_tidy.
  - rewrite (add_thing_wrap w (Some f)). apply add_thing_object_tidy.
    destruct (Agent_init_returns CAgent (Some f) w) as (w' & -> & Ht & Ha).
    unfold tidy. simpl. by rewrite Ht, Ha.
  - rewrite (add_thing_wrap w None). apply add_thing_object_tidy.
    destruct (Agent_init_returns CAgent None w) as (w' & -> & Ht & Ha).
    unfold tidy. simpl. by rewrite Ht, Ha.
Qed.

(** [delete_thing], list by list: the thing's first occurrence leaves
    each list that has it, unless the report of a missing thing raises
    before [agents] is looked at; nothing else changes in the lists. *)
Lemma delete_thing_lists w (t : object) w' :
  w' = final (Environment.delete_thing t w) ->
  things w' = default (things w) (list_remove t (things w)) /\
  (agents w' = default (agents w) (list_remove t (agents w)) \/
   list_remove t (things w) = None /\ agents w' = agents w).
Proof.
  intros ->. unfold Environment.delete_thing. unfold_methods.
  destruct (list_remove t (things w)) as [l|] eqn:Hrm; simpl.
  - case_bool_decide as Hin; simpl.
    + destruct (list_remove t (agents w)) as [l2|] eqn:Hrm2; simpl;
        (split; [done|]); by left.
    + apply list_remove_None in Hin. rewrite Hin. split; [done|]. by left.
  - rewrite (location_of_ext _ w) by done.
    destruct (Thing.location_of w t); simpl; [split; [done|by right]|].
    rewrite (located_ext _ w) by done.
    destruct (Environment.located _ _); simpl; [split; [done|by right]|].
    case_bool_decide as Hin; simpl; [|split; [done|by right]].
    destruct (list_remove t (agents w)) as [l2|] eqn:Hrm2; simpl;
      (split; [done|]); by left.
Qed.

Lemma delete_thing_tidy w (t : object) :
  tidy w -> tidy (final (Environment.delete_thing t w)).
Proof.
  intros (Ht & Ha & Hsub). unfold tidy.
  destruct (delete_thing_lists w t _ eq_refl) as [-> Hag].
  destruct (list_remove t (things w)) as [l|] eqn:Hrm; simpl.
  - destruct Hag as [->|[? _]]; [|done].
    destruct (list_remove_NoDup _ _ _ Hrm Ht) as [Hl Htl].
    destruct (list_remove t (agents w)) as [l2|] eqn:Hrm2; simpl.
    + destruct (list_remove_NoDup _ _ _ Hrm2 Ha) as [Hl2 Htl2].
      split_and!; [done | done |]. intros x Hx.
      apply (list_remove_other _ _ _ _ Hrm).
      * apply Hsub. by apply (list_remove_elem_of _ _ _ _ Hrm2).
      * intros ->. done.
    + split_and!; [done | done |]. intros x Hx.
      apply (list_remove_other _ _ _ _ Hrm); [by apply Hsub|].
      intros ->. by apply list_remove_None in Hrm2.
  - assert (Hnin : list_remove t (agents w) = None).
    { apply list_remove_None. intros H. apply list_remove_None in Hrm.
      by apply Hrm, Hsub. }
    rewrite Hnin in Hag. simpl in Hag.
    assert (Hag' : agents (final (Environment.delete_thing t w)) = agents w)
      by (destruct Hag as [?|[_ ?]]; done).
    rewrite Hag'. done.
Qed.

Lemma perform_tidy w (c : History.call) :
  tidy w -> tidy (final (History.perform E c w)).
Proof.
  destruct c; simpl; [apply add_thing_tidy | apply delete_thing_tidy].
Qed.

Lemma after_tidy (calls : list History.call) w :
  tidy w -> tidy (History.after E calls w).
Proof.
  revert w. induction calls as [|c calls IH]; intros w Hw; simpl; [done|].
  apply IH. by apply perform_tidy.
Qed.

(** C4.  A new environment has its agents among its things, and so has
    the environment left by any sequence of [add_thing] and
    [delete_thing] calls on it, with any arguments, whether the calls
    return or raise. *)
Theorem agents_subset_things (calls : list History.call) w :
  agents (Environment.init w) ⊆ things (Environment.init w) /\
  agents (History.after E calls (Environment.init w))
    ⊆ things (History.after E calls (Environment.init w)).
Proof.
  split.
  - apply (init_tidy w).
  - apply (after_tidy calls (Environment.init w)), init_tidy.
Qed.
End Lists.

(** The notebook goes on: five more steps take the dog to the water, after
    which the park is done; a new water at 15 is reached in ten more. *)
Example run_5_more (console : list object -> action) :
  let w5 := final (Environment.run Park.cls 5 (Scenario.park console)) in
  let w10 := final (Environment.run Park.cls 5 w5) in
  drop 5 (stdout w10) = [ "BlindDog decided to move down at location: 5";
                          "BlindDog decided to move down at location: 6";
                          "BlindDog drank Water at location: 7" ]%string /\
  things w10 = [Scenario.dog] /\ Park.is_done w10 = true.
Proof. split_and!; vm_compute; reflexivity. Qed.

Example run_10_after_more_water (console : list object -> action) :
  let w5 := final (Environment.run Park.cls 5 (Scenario.park console)) in
  let w10 := final (Environment.run Park.cls 5 w5) in
  let w11 := final (Environment.add_thing Park.cls
                      (Environment.AThing Scenario.water) (VInt 15) w10) in
  let w21 := final (Environment.run Park.cls 10 w11) in
  drop 8 (stdout w21) = [ "BlindDog decided to move down at location: 7";
                          "BlindDog decided to move down at location: 8";
                          "BlindDog decided to move down at location: 9";
                          "BlindDog decided to move down at location: 10";
                          "BlindDog decided to move down at location: 11";
                          "BlindDog decided to move down at location: 12";
                          "BlindDog decided to move down at location: 13";
                          "BlindDog decided to move down at location: 14";
                          "BlindDog drank Water at location: 15" ]%string /\
  Thing.location_of w21 Scenario.dog = inr (VInt 15) /\
  things w21 = [Scenario.dog].
Proof. split_and!; vm_compute; reflexivity. Qed.

(** Locations that are tuples are compared pairwise, as far as the shorter
    one goes; a number against a tuple is a [TypeError]. *)
Example list_things_at_tuples :
  let s := <[Scenario.dogfood := with_location (VTuple [1; 2]) no_attrs]>
           (<[Scenario.water := with_location (VTuple [1; 3]) no_attrs]>
            (fun _ => no_attrs)) in
  let w := World (Percept := unit) s [Scenario.dogfood; Scenario.water] [] []
                 3 quiet in
  Environment.list_things_at w (VTuple [1; 2]) CThing = inr [Scenario.dogfood] /\
  Environment.list_things_at w (VTuple [1]) CThing
    = inr [Scenario.dogfood; Scenario.water] /\
  Environment.list_things_at w (VInt 1) CThing = inr [] /\
  Environment.list_things_at w VNone CThing = inl TypeError.
Proof. split_and!; vm_compute; reflexivity. Qed.

(** ** [delete_thing] on a thing that is not there *)

Section Missing.
Context {Percept : Type}.
Implicit Types (w : world Percept).

Lemma located_placed w (l : list object) :
  (forall t, t ∈ l -> is_Some (location (store w t))) ->
  exists pairs, Environment.located w l = inr pairs.
Proof.
  induction l as [|t l IH]; intros Hl; simpl; [by eexists|].
  destruct (Hl t) as [v Hv]; [by left|].
  destruct IH as [pairs ->]; [intros x Hx; apply Hl; by right|].
  unfold Thing.location_of. rewrite Hv. by eexists.
Qed.

(** A missing thing that has a location is reported in four lines, and
    the call returns with both lists and the store as they were. *)
Lemma delete_thing_missing_placed w (t : object) (v : value) :
  tidy w -> placed w -> t ∉ things w -> Thing.location_of w t = inr v ->
  exists w' pairs,
    Environment.delete_thing t w = Ret tt w' /\
    things w' = things w /\ agents w' = agents w /\ store w' = store w /\
    Environment.located w (things w) = inr pairs /\
    stdout w' = stdout w ++
      [ "list.remove(x): x not in list";
        "  in Environment delete_thing";
        "  Thing to be removed: " +:+ Thing.repr w t +:+ " at "
          +:+ str_value v;
        "  from list: " +:+ Environment.str_pairs w pairs ]%string.
Proof.
  intros (_ & _ & Hsub) Hpl Hnin Hloc.
  destruct (located_placed w (things w) Hpl) as [pairs Hpairs].
  assert (Hrm : list_remove t (things w) = None) by by apply list_remove_None.
  unfold Environment.delete_thing. unfold_methods. rewrite Hrm. simpl.
  rewrite (location_of_ext _ w) by done. rewrite Hloc. simpl.
  rewrite (located_ext _ w) by done. rewrite Hpairs. simpl.
  rewrite bool_decide_eq_false_2 by (intros H; by apply Hnin, Hsub).
  eexists _, pairs. split; [reflexivity|]. simpl.
  rewrite <- !app_assoc. done.
Qed.

(** A missing thing that was never given a location: the report itself
    raises, after its first two lines. *)
Lemma delete_thing_missing_unplaced w (t : object) :
  t ∉ things w -> Thing.location_of w t = inl AttributeError ->
  exists w',
    Environment.delete_thing t w = Raise AttributeError w' /\
    things w' = things w /\ agents w' = agents w.
Proof.
  intros Hnin Hloc.
  assert (Hrm : list_remove t (things w) = None) by by apply list_remove_None.
  unfold Environment.delete_thing. unfold_methods. rewrite Hrm. simpl.
  rewrite (location_of_ext _ w) by done. rewrite Hloc. simpl.
  by eexists.
Qed.
End Missing.

(** C6, where the code departs from it.  [crumb = Food()] was never added to
    an environment, so it has no [location]; [park.delete_thing(crumb)]
    prints the first two lines of its report and then raises
    [AttributeError] while formatting the third.  The two lists keep their
    lengths. *)
Theorem delete_thing_unplaced_raises :
  let w := Scenario.park_with_crumb in
  let r := Environment.delete_thing Scenario.crumb w in
  Thing.new CFood (Scenario.park quiet) = Ret Scenario.crumb w /\
  (Scenario.crumb ∉ things w) /\
  raised r = Some AttributeError /\
  stdout (final r) = [ "list.remove(x): x not in list";
                       "  in Environment delete_thing" ]%string /\
  length (things (final r)) = length (things w) /\
  length (agents (final r)) = length (agents w).
Proof.
  split_and!; try reflexivity.
  vm_compute. intros H. repeat (apply elem_of_cons in H as [H|H]; [discriminate|]).
  by apply elem_of_nil in H.
Qed.

(** ** What the dog feels *)

Section Percept.
Implicit Types (w : world (list object)).

Lemma select_at_integer w (n : Z) (l : list object) :
  (forall t, t ∈ l -> is_Some (location (store w t))) ->
  Environment.select w (VInt n) CThing l
  = inr (filter (fun t => Thing.location_of w t = inr (VInt n)) l).
Proof.
  induction l as [|t l IH]; intros Hl; simpl; [done|].
  rewrite IH by (intros x Hx; apply Hl; by right).
  destruct (Hl t) as [v Hv]; [by left|].
  assert (Hloc : Thing.location_of w t = inr v)
    by (unfold Thing.location_of; by rewrite Hv).
  unfold Environment.at_location. rewrite Hloc. simpl.
  rewrite filter_cons, Hloc.
  unfold isinstance. simpl. rewrite andb_true_r.
  case_bool_decide as Hb; case_decide as Hd; try done.
  - destruct Hd. by rewrite Hb.
  - destruct Hb. congruence.
Qed.

(** C9, as amended.  In a park whose things all have a location, an
    agent that is in [things] at an integer position perceives exactly
    the things whose location is that integer, of any class, in the order
    of [things]; the agent is one of them, so the list is not empty. *)
Theorem percept_at_integer w (a : object) (n : Z) :
  placed w -> a ∈ things w -> Thing.location_of w a = inr (VInt n) ->
  let here := filter (fun t => Thing.location_of w t = inr (VInt n))
                     (things w) in
  Park.percept a w = inr here /\ a ∈ here /\ here <> [].
Proof.
  intros Hpl Ha Hloc here.
  assert (Hin : a ∈ here) by (apply list_elem_of_filter; done).
  split_and!; [|done|].
  - unfold Park.percept. rewrite Hloc.
    unfold Environment.list_things_at. by apply select_at_integer.
  - intros Hnil. rewrite Hnil in Hin. by apply elem_of_nil in Hin.
Qed.
End Percept.

Lemma percept_at_integer_witness :
  let w := Scenario.park quiet in
  let here := filter (fun t => Thing.location_of w t = inr (VInt 1))
                     (things w) in
  Park.percept Scenario.dog w = inr here /\ Scenario.dog ∈ here /\ here <> [].
Proof.
  apply (percept_at_integer (Scenario.park quiet) Scenario.dog 1).
  - intros t Ht. vm_compute in Ht.
    repeat (apply elem_of_cons in Ht as [->|Ht];
            [vm_compute; by eexists|]).
    by apply elem_of_nil in Ht.
  - vm_compute. by left.
  - vm_compute. reflexivity.
Defined.

(** C9, as stated, fails: a dog added with no location is in [things] with
    location [None], and its percept is a [TypeError], not a list. *)
Lemma percept_unplaced_dog :
  Scenario.dog ∈ things Scenario.stray /\
  location (store Scenario.stray Scenario.dog) = Some VNone /\
  Park.percept Scenario.dog Scenario.stray = inl TypeError.
Proof. split_and!; [vm_compute; by left | reflexivity | reflexivity]. Qed.

(** ** The first run of the notebook *)

(** C3.  In the park set up with the dog at 1, the food at 5 and the water
    at 7, the first five ticks are not done; the dog decides ["move down"]
    at 1, 2, 3 and 4 and ["eat"] at 5.  [run(5)] returns having printed
    exactly those five actions; the dog is then at 5, the food is out of
    [things] and the water still in it. *)
Theorem run_5_moves_and_eats (console : list object -> action) :
  let w0 := Scenario.park console in
  let after := final (Environment.run Park.cls 5 w0) in
  Scenario.setup (Scenario.nothing console)
    = Ret (Scenario.dog, Scenario.dogfood, Scenario.water) w0 /\
  map (fun k => let w := Scenario.tick console k in
                (Park.is_done w,
                 Environment.decide_all Park.cls w (agents w),
                 Thing.location_of w Scenario.dog))
      [0; 1; 2; 3; 4]%nat
  = [ (false, inr ["move down"%string], inr (VInt 1));
      (false, inr ["move down"%string], inr (VInt 2));
      (false, inr ["move down"%string], inr (VInt 3));
      (false, inr ["move down"%string], inr (VInt 4));
      (false, inr ["eat"%string], inr (VInt 5)) ] /\
  returns (Environment.run Park.cls 5 w0) = true /\
  stdout after = [ "BlindDog decided to move down at location: 1";
                   "BlindDog decided to move down at location: 2";
                   "BlindDog decided to move down at location: 3";
                   "BlindDog decided to move down at location: 4";
                   "BlindDog ate Food at location: 5" ]%string /\
  stdout after = stdout (Scenario.tick console 5) /\
  Thing.location_of after Scenario.dog = inr (VInt 5) /\
  things after = [Scenario.dog; Scenario.water] /\
  (Scenario.dogfood ∉ things after) /\
  Scenario.water ∈ things after.
Proof.
  split_and!; try (vm_compute; reflexivity).
  - vm_compute. intros H.
    repeat (apply elem_of_cons in H as [H|H]; [discriminate|]).
    by apply elem_of_nil in H.
  - vm_compute. right. by left.
Qed.

(** ** What an action changes in the park *)

Section Effects.
Implicit Types (w : world (list object)).

Lemma delete_thing_store {Percept} (w : world Percept) (t : object) :
  store (final (Environment.delete_thing t w)) = store w.
Proof.
  unfold Environment.delete_thing. unfold_methods.
  destruct (list_remove t (things w)); simpl.
  - case_bool_decide; simpl; [|done].
    by destruct (list_remove t (agents w)).
  - rewrite (location_of_ext _ w) by done.
    destruct (Thing.location_of w t); simpl; [done|].
    rewrite (located_ext _ w) by done.
    destruct (Environment.located _ _); simpl; [done|].
    case_bool_decide; simpl; [|done].
    by destruct (list_remove t (agents w)).
Qed.

Lemma delete_thing_keeps {Percept} (w : world Percept) (t x : object) :
  x <> t -> x ∈ things w -> x ∈ things (final (Environment.delete_thing t w)).
Proof.
  intros Hne Hx. destruct (delete_thing_lists w t _ eq_refl) as [-> _].
  destruct (list_remove t (things w)) as [l|] eqn:Hrm; simpl; [|done].
  by apply (list_remove_other _ _ _ _ Hrm).
Qed.

Lemma delete_thing_agents {Percept} (w : world Percept) (t : object) :
  t ∉ agents w -> agents (final (Environment.delete_thing t w)) = agents w.
Proof.
  intros Hnin. apply list_remove_None in Hnin.
  destruct (delete_thing_lists w t _ eq_refl) as [_ [->|[_ ->]]]; [|done].
  by rewrite Hnin.
Qed.

Lemma execute_action_effect (agent : object) (a : action) w :
  effect agent a w (final (Park.execute_action agent a w)).
Proof.
  unfold Park.execute_action.
  destruct (decide (a = "move down"%string)) as [->|Hm].
  { unfold_methods. simpl.
    destruct (Thing.location_of w agent) as [e|l] eqn:Hl; simpl;
      [by apply effect_none|].
    unfold BlindDog.movedown.
    destruct (class_of agent) eqn:Hc; simpl; try by apply effect_none.
    unfold_methods. rewrite (location_of_ext _ w) by done. rewrite Hl.
    destruct l as [|k|]; simpl; try by apply effect_none.
    by apply (effect_moved _ _ _ _ k). }
  destruct (decide (a = "eat"%string)) as [->|He].
  { unfold_methods.
    destruct (Thing.location_of w agent) as [e|l] eqn:Hl; simpl;
      [by apply effect_none|].
    destruct (Environment.list_things_at w l CFood) as [e|[|item items]];
      simpl; try by apply effect_none.
    unfold BlindDog.eat.
    destruct (class_of agent) eqn:Hc; simpl; try by apply effect_none.
    unfold_methods.
    destruct (isinstance item CFood) eqn:Hi; simpl; [|by apply effect_none].
    rewrite Hl. simpl.
    eapply (effect_consumed _ _ _ _ item); [done | | | | | reflexivity];
      [by rewrite Hi | done | done | done]. }
  destruct (decide (a = "drink"%string)) as [->|Hd].
  { unfold_methods.
    destruct (Thing.location_of w agent) as [e|l] eqn:Hl; simpl;
      [by apply effect_none|].
    destruct (Environment.list_things_at w l CWater) as [e|[|item items]];
      simpl; try by apply effect_none.
    unfold BlindDog.drink.
    destruct (class_of agent) eqn:Hc; simpl; try by apply effect_none.
    unfold_methods.
    destruct (isinstance item CWater) eqn:Hi; simpl; [|by apply effect_none].
    rewrite Hl. simpl.
    eapply (effect_consumed _ _ _ _ item); [done | | | | | reflexivity];
      [by rewrite Hi, orb_true_r | done | done | done]. }
  by apply effect_none.
Qed.
End Effects.

(** ** Things keep their locations *)

Section Placed.
Context {Percept : Type}.
Variable E : Environment.methods Percept.
Implicit Types (w : world Percept).

Lemma init_placed w : placed (Environment.init w).
Proof. intros t Ht. simpl in Ht. by apply elem_of_nil in Ht. Qed.

Lemma add_thing_object_placed w (o : object) (loc : value) :
  placed w ->
  placed (final (Environment.add_thing E (Environment.AThing o) loc w)).
Proof.
  intros Hw. unfold Environment.add_thing. unfold_methods. simpl.
  case_bool_decide as Ho; simpl; [done|].
  destruct (isinstance o CAgent); intros t Ht; simpl in *;
    apply elem_of_app in Ht as [Ht|Ht%list_elem_of_singleton];
    try (subst t; rewrite !fn_lookup_insert; by eexists);
    (destruct (decide (o = t)) as [->|Hne];
     [rewrite !fn_lookup_insert; by eexists
     |rewrite !fn_lookup_insert_ne by done; by apply Hw]).
Qed.

Lemma delete_thing_placed w (t : object) :
  placed w -> placed (final (Environment.delete_thing t w)).
Proof.
  intros Hw x Hx. rewrite delete_thing_store. apply Hw.
  destruct (delete_thing_lists w t _ eq_refl) as [Hth _]. rewrite Hth in Hx.
  destruct (list_remove t (things w)) as [l|] eqn:Hrm; simpl in Hx; [|done].
  by apply (list_remove_elem_of _ _ _ _ Hrm).
Qed.
End Placed.

Lemma execute_action_placed (w : world (list object)) agent a :
  placed w -> placed (final (Park.execute_action agent a w)).
Proof.
  intros Hw.
  destruct (execute_action_effect agent a w)
    as [Hs Ht _|k _ _ _ Hs Ht _|item w1 _ _ Hs Ht _ ->].
  - intros t Hin. rewrite Hs. apply Hw. by rewrite <- Ht.
  - intros t Hin. rewrite Hs. rewrite Ht in Hin.
    destruct (decide (agent = t)) as [->|Hne].
    + rewrite fn_lookup_insert. by eexists.
    + rewrite fn_lookup_insert_ne by done. by apply Hw.
  - apply delete_thing_placed. intros t Hin. rewrite Hs. apply Hw.
    by rewrite <- Ht.
Qed.

(** ** The dog's location *)

Section Location.
Implicit Types (w : world (list object)).
Variable d : object.
Hypothesis d_dog : class_of d = CBlindDog.

Local Abbreviation home := (Roaming.home d).

Lemma home_location_of w n : home w n -> Thing.location_of w d = inr (VInt n).
Proof. intros H. unfold Thing.location_of. by rewrite H. Qed.

Lemma effect_home agent a w w' n :
  effect agent a w w' -> home w n ->
  exists m, home w' m /\ n <= m <= n + 1 /\
            (a <> "move down"%string -> m = n).
Proof.
  intros Heff Hn. unfold Roaming.home in *.
  destruct Heff as [Hs Ht Ha|k Hm Hc Hk Hs Ht Ha|item w1 Hm Hi Hs Ht Ha ->].
  - exists n. rewrite Hs. split_and!; try done; try lia.
  - destruct (decide (agent = d)) as [->|Hne].
    + assert (k = n) as ->.
      { unfold Thing.location_of in Hk. rewrite Hn in Hk. congruence. }
      exists (n + 1). rewrite Hs, fn_lookup_insert.
      split_and!; try done; lia.
    + exists n. rewrite Hs, fn_lookup_insert_ne by done.
      split_and!; try done; lia.
  - exists n. rewrite delete_thing_store, Hs.
    split_and!; try done; try lia.
Qed.

Lemma act_loop_home (actions : list action) (i : nat) w n :
  home w n ->
  exists m, home (final (Environment.act_loop Park.cls i actions w)) m /\
            n <= m.
Proof.
  revert i w n. induction actions as [|a actions IH]; intros i w n Hh; simpl.
  - exists n. split; [done | lia].
  - unfold_methods. destruct (agents w !! i) as [agent|]; simpl;
      [|exists n; split; [done | lia]].
    destruct (effect_home agent a w _ n (execute_action_effect agent a w) Hh)
      as (m & Hm & Hle & _).
    destruct (Park.execute_action agent a w) as [[] w'|e w'] eqn:Hex; simpl in *.
    + destruct (IH (S i) w' m Hm) as (m' & Hm' & Hle').
      exists m'. split; [done | lia].
    + exists m. split; [done | lia].
Qed.

Lemma step_home w n :
  home w n ->
  exists m, home (final (Environment.step Park.cls w)) m /\ n <= m.
Proof.
  intros Hh. unfold Environment.step. unfold_methods. simpl.
  destruct (Park.is_done w); simpl; [exists n; split; [done | lia]|].
  destruct (Environment.decide_all Park.cls w (agents w)) as [e|actions];
    simpl; [exists n; split; [done | lia]|].
  destruct (act_loop_home actions 0 w n Hh) as (m & Hm & Hle).
  destruct (Environment.act_loop Park.cls 0 actions w) as [[] w'|e w'];
    simpl in *; exists m; done.
Qed.

Lemma run_home (steps : nat) w n :
  home w n ->
  exists m, home (final (Environment.run Park.cls steps w)) m /\ n <= m.
Proof.
  revert w n. induction steps as [|steps IH]; intros w n Hh; simpl.
  - exists n. split; [done | lia].
  - unfold_methods. simpl.
    destruct (Park.is_done w); simpl; [exists n; split; [done | lia]|].
    destruct (step_home w n Hh) as (m & Hm & Hle).
    destruct (Environment.step Park.cls w) as [[] w'|e w']; simpl in *.
    + destruct (IH w' m Hm) as (m' & Hm' & Hle').
      exists m'. split; [done | lia].
    + exists m. done.
Qed.

Lemma Agent_init_store {Percept} c program (w : world Percept) (x : object) :
  x <> Object (next_oid w) c ->
  store (final (Agent.init c program w)) x = store w x.
Proof.
  intros Hne. unfold Agent.init. unfold_methods.
  destruct program; simpl; by rewrite !fn_lookup_insert_ne.
Qed.

(** Adding a thing touches the attributes of that thing only, and of none
    if the thing is already there. *)
Lemma add_thing_object_home w (o : object) (loc : value) n :
  o <> d \/ o ∈ things w -> home w n ->
  home (final (Environment.add_thing Park.cls (Environment.AThing o) loc w)) n.
Proof.
  intros Ho Hn. unfold Roaming.home in *.
  unfold Environment.add_thing. unfold_methods. simpl.
  case_bool_decide as Hin; simpl; [done|].
  destruct Ho as [Hne|Ho]; [|done].
  destruct (isinstance o CAgent); simpl;
    by rewrite ?fn_lookup_insert_ne by done.
Qed.

Lemma add_thing_home w (arg : Environment.argument) (loc : value) n :
  (arg = Environment.AThing d -> d ∈ things w) -> home w n ->
  home (final (Environment.add_thing Park.cls arg loc w)) n.
Proof.
  intros Harg Hh.
  assert (Hw : forall program,
             home (final (Agent.init CAgent program w)) n).
  { intros program. unfold Roaming.home. rewrite Agent_init_store; [done|].
    intros ->. simpl in d_dog. done. }
  assert (Hnew : forall w', Object (next_oid w) CAgent <> d \/
                            Object (next_oid w) CAgent ∈ things w').
  { intros w'. left. intros <-. simpl in d_dog. done. }
  destruct arg as [o|f|].
  - apply add_thing_object_home; [|done].
    destruct (decide (o = d)) as [->|Hne]; [right; by apply Harg | by left].
  - rewrite (add_thing_wrap Park.cls w (Some f)).
    by apply add_thing_object_home.
  - rewrite (add_thing_wrap Park.cls w None).
    by apply add_thing_object_home.
Qed.

Lemma roams_home w : Roaming.roams d w -> exists n, home w n.
Proof.
  induction 1 as [w z Hnin|w thing loc _ [n IH] Harg|w t _ [n IH]
                 |w agent a _ [n IH]|w _ [n IH]|w steps _ [n IH]].
  - exists z. unfold Environment.add_thing. unfold_methods. simpl.
    rewrite bool_decide_eq_false_2 by done. simpl.
    unfold isinstance. rewrite d_dog. simpl. unfold Roaming.home. simpl.
    by rewrite !fn_lookup_insert.
  - exists n. by apply add_thing_home.
  - exists n. unfold Roaming.home. by rewrite delete_thing_store.
  - destruct (effect_home agent a w _ n (execute_action_effect agent a w) IH)
      as (m & Hm & _). by exists m.
  - destruct (step_home w n IH) as (m & Hm & _). by exists m.
  - destruct (run_home steps w n IH) as (m & Hm & _). by exists m.
Qed.

End Location.



(** ** One tick *)

Section Tick.
Context {Percept : Type}.
Variable E : Environment.methods Percept.
Implicit Types (w : world Percept).

(** What holds of the environment between two actions of a tick, when
    executing an action leaves the list of agents as it is. *)
Variable steady : world Percept -> Prop.
Hypothesis execute_action_steady : forall w agent a w',
  steady w -> Environment.execute_action E agent a w = Ret tt w' ->
  steady w' /\ agents w' = agents w.

(** The loop over the live list meets the same agents as a loop over the
    list taken when it starts. *)
Lemma act_loop_zip (actions : list action) (i : nat) w :
  steady w ->
  Environment.act_loop E i actions w
  = Protocol.act_each E (zip (drop i (agents w)) actions) w.
Proof.
  revert i w. induction actions as [|a actions IH]; intros i w Hw; simpl.
  - by destruct (drop i (agents w)).
  - unfold bind at 1. unfold get.
    destruct (agents w !! i) as [agent|] eqn:Hi.
    + rewrite (drop_S _ _ _ Hi). simpl. unfold bind.
      destruct (Environment.execute_action E agent a w) as [[] w'|e w']
        eqn:Hex; [|done].
      destruct (execute_action_steady w agent a w' Hw Hex) as [Hw' Hag].
      rewrite (IH (S i) w' Hw'), Hag. done.
    + apply lookup_ge_None_1 in Hi. by rewrite drop_ge.
Qed.

Lemma decide_all_decided w (l : list object) (actions : list action) :
  Environment.decide_all E w l = inr actions ->
  Forall2 (Protocol.decided E w) l actions.
Proof.
  revert actions. induction l as [|agent l IH]; simpl; intros actions H.
  - injection H as <-. constructor.
  - destruct (Environment.decide_one E w agent) as [e|a] eqn:Ha; [done|].
    destruct (Environment.decide_all E w l) as [e|r]; [done|].
    injection H as <-. constructor; [|by apply IH].
    unfold Environment.decide_one in Ha. unfold Protocol.decided.
    destruct (Thing.alive_of w agent) as [e|[]]; [done| |congruence].
    destruct (Thing.program_of w agent) as [e|program]; [done|].
    destruct (Environment.percept E agent w) as [e|p]; [done|].
    exists program, p. split_and!; congruence.
Qed.

Lemma step_refines w :
  steady w -> Environment.step E w = Protocol.two_phase_step E w.
Proof.
  intros Hw. unfold Environment.step, Protocol.two_phase_step.
  unfold bind at 1. unfold get.
  destruct (Environment.is_done E w); [done|].
  unfold bind at 1. unfold query.
  destruct (Environment.decide_all E w (agents w)) as [e|actions]; [done|].
  unfold bind. by rewrite (act_loop_zip actions 0 w Hw).
Qed.

End Tick.

(** In a park only [Food] and [Water] are taken out, and they are not
    agents. *)
Lemma Park_execute_action_agents (w : world (list object)) agent a w' :
  agents_are_agents w -> Park.execute_action agent a w = Ret tt w' ->
  agents_are_agents w' /\ agents w' = agents w.
Proof.
  intros Hw Hex.
  assert (Hag : agents w' = agents w).
  { pose proof (execute_action_effect agent a w) as Heff.
    rewrite Hex in Heff. simpl in Heff.
    destruct Heff as [_ _ Ha|k _ _ _ _ _ Ha|item w1 _ Hi _ _ Ha ->]; try done.
    rewrite delete_thing_agents; [done|]. rewrite Ha. intros Hin.
    apply Hw in Hin. unfold isinstance in *.
    destruct (class_of item); done. }
  split; [|done]. unfold agents_are_agents. by rewrite Hag.
Qed.

(** In a park whose agents are all instances of [Agent], a step is the
    two-phase tick. *)
Lemma Park_step_two_phase (w : world (list object)) :
  agents_are_agents w ->
  Environment.step Park.cls w = Protocol.two_phase_step Park.cls w.
Proof.
  apply (step_refines Park.cls agents_are_agents Park_execute_action_agents).
Qed.

Lemma scenario_agents_are_agents : agents_are_agents (Scenario.park quiet).
Proof.
  intros x Hx. vm_compute in Hx.
  repeat (apply elem_of_cons in Hx as [->|Hx]; [reflexivity|]).
  by apply elem_of_nil in Hx.
Qed.



(** * Further properties *)

(** ** [run] *)

Section Run.
Context {Percept : Type}.
Variable E : Environment.methods Percept.
Implicit Types (w : world Percept).

Lemma run_when_done (n : nat) w :
  Environment.is_done E w = true -> Environment.run E n w = Ret tt w.
Proof.
  intros Hd. destruct n; simpl; [done|]. unfold bind, get. by rewrite Hd.
Qed.

Lemma step_when_done w :
  Environment.is_done E w = true -> Environment.step E w = Ret tt w.
Proof. intros Hd. unfold Environment.step, bind, get. by rewrite Hd. Qed.

(** X1.  Running [m + n] steps is running [m] steps and then [n] more:
    the same world, the same output, the same exception if one is
    raised. *)
Theorem run_add (m n : nat) w :
  Environment.run E (m + n) w
  = (Environment.run E m ;; Environment.run E n) w.
Proof.
  revert w. induction m as [|m IH]; intros w; [done|].
  change (S m + n)%nat with (S (m + n)). simpl.
  unfold bind in *. unfold get.
  destruct (Environment.is_done E w) eqn:Hd.
  - unfold ret. by rewrite run_when_done.
  - destruct (Environment.step E w) as [[] w'|e w']; [|done]. apply IH.
Qed.

(** X3.  A [run] that returns has taken some number [k] of steps, at most
    the number asked for; the environment was not done before any of
    them, and if fewer were taken than asked for it is done now. *)
Theorem run_returns (n : nat) w w' :
  Environment.run E n w = Ret tt w' ->
  exists k, (k <= n)%nat /\ w' = ticks E k w /\
            (forall j, (j < k)%nat ->
               Environment.is_done E (ticks E j w) = false /\
               returns (Environment.step E (ticks E j w)) = true) /\
            ((k < n)%nat -> Environment.is_done E w' = true).
Proof.
  revert w. induction n as [|n IH]; intros w; simpl.
  - intros [= <-]. exists 0%nat. split_and!; [lia | done | lia | lia].
  - unfold bind at 1. unfold get.
    destruct (Environment.is_done E w) eqn:Hd.
    + intros [= <-]. exists 0%nat. split_and!; [lia | done | lia | done].
    + unfold bind. destruct (Environment.step E w) as [[] w1|e w1] eqn:Hs;
        [|done].
      intros Hrun. destruct (IH w1 Hrun) as (k & Hk & -> & Hnot & Hdone).
      exists (S k). simpl. rewrite Hs. simpl. split_and!; [lia | done | | ].
      * intros [|j] Hj; simpl.
        -- by rewrite Hd, Hs.
        -- rewrite Hs. simpl. apply Hnot. lia.
      * intros Hlt. apply Hdone. lia.
Qed.
End Run.

(** X2.  With no agent in it, as when it is new, an environment is done,
    for the base class and for a park alike, and [step] and [run] return
    it as it is. *)
Theorem no_agents_done (w : world (list object)) (n : nat) :
  agents w = [] ->
  Environment.Base.is_done w = true /\ Park.is_done w = true /\
  Environment.step Environment.Base.cls w = Ret tt w /\
  Environment.run Environment.Base.cls n w = Ret tt w /\
  Environment.step Park.cls w = Ret tt w /\
  Environment.run Park.cls n w = Ret tt w.
Proof.
  intros Ha.
  assert (Hd : Environment.Base.is_done w = true)
    by (unfold Environment.Base.is_done; by rewrite Ha).
  assert (Hp : Park.is_done w = true)
    by (unfold Park.is_done; by rewrite Ha).
  split_and!; [done | done | by apply step_when_done | by apply run_when_done
              | by apply step_when_done | by apply run_when_done].
Qed.

Lemma no_agents_done_witness :
  let w := Environment.init (Scenario.nothing quiet) in
  Environment.Base.is_done w = true /\ Park.is_done w = true /\
  Environment.step Environment.Base.cls w = Ret tt w /\
  Environment.run Environment.Base.cls 1000 w = Ret tt w /\
  Environment.step Park.cls w = Ret tt w /\
  Environment.run Park.cls 1000 w = Ret tt w.
Proof.
  apply (no_agents_done (Environment.init (Scenario.nothing quiet)) 1000).
  reflexivity.
Defined.

Lemma run_returns_witness :
  exists k, (k <= 10)%nat /\
    Scenario.tick quiet 8 = ticks Park.cls k (Scenario.tick quiet 5) /\
    (forall j, (j < k)%nat ->
       Environment.is_done Park.cls (ticks Park.cls j (Scenario.tick quiet 5))
         = false /\
       returns (Environment.step Park.cls
                  (ticks Park.cls j (Scenario.tick quiet 5))) = true) /\
    ((k < 10)%nat ->
     Environment.is_done Park.cls (Scenario.tick quiet 8) = true).
Proof.
  apply (run_returns Park.cls 10 (Scenario.tick quiet 5)
           (Scenario.tick quiet 8)).
  vm_compute. reflexivity.
Defined.

(** ** The class with nothing overridden *)

Section Abstract.
Context {Percept : Type}.
Implicit Types (w : world Percept).

Lemma decide_all_abstract w (l : list object) :
  (forall a, a ∈ l ->
     is_Some (alive (store w a)) /\ is_Some (program_slot (store w a))) ->
  Environment.decide_all Environment.Base.cls w l
  = if existsb (Thing.is_alive w) l then inl NotImplementedError
    else inr (map (fun _ => ""%string) l).
Proof.
  induction l as [|a l IH]; intros Hl; simpl; [done|].
  destruct (Hl a) as [[b Hb] [f Hf]]; [by left|].
  rewrite IH by (intros x Hx; apply Hl; by right).
  unfold Environment.decide_one, Thing.alive_of, Thing.program_of,
    Thing.is_alive.
  rewrite Hb, Hf. destruct b; simpl; [done|].
  by destruct (existsb _ l).
Qed.

(** X4.  An environment of the bare [Environment] class cannot be
    stepped: unless it is done, [step] raises [NotImplementedError] out of
    [percept] and leaves everything as it was. *)
Theorem step_abstract w :
  constructed w ->
  Environment.step Environment.Base.cls w
  = if Environment.Base.is_done w then Ret tt w
    else Raise NotImplementedError w.
Proof.
  intros Hw. unfold Environment.step, bind, get, query. simpl.
  destruct (Environment.Base.is_done w) eqn:Hd; [done|].
  rewrite (decide_all_abstract w (agents w) Hw).
  unfold Environment.Base.is_done in Hd. apply negb_false_iff in Hd.
  by rewrite Hd.
Qed.
End Abstract.

Lemma step_abstract_witness :
  Environment.step Environment.Base.cls Leaver.yard
  = if Environment.Base.is_done Leaver.yard then Ret tt Leaver.yard
    else Raise NotImplementedError Leaver.yard.
Proof.
  apply (step_abstract Leaver.yard).
  intros a Ha. vm_compute in Ha.
  repeat (apply elem_of_cons in Ha as [->|Ha];
          [split; vm_compute; by eexists|]).
  by apply elem_of_nil in Ha.
Defined.

(** ** Adding and deleting *)

Lemma list_remove_present x l : x ∈ l -> exists r, list_remove x l = Some r.
Proof.
  intros Hx. destruct (list_remove x l) as [r|] eqn:Hrm; [by eexists|].
  by apply list_remove_None in Hrm.
Qed.

Lemma list_remove_last x l : x ∉ l -> list_remove x (l ++ [x]) = Some l.
Proof.
  induction l as [|y l IH]; simpl; intros Hx.
  - by rewrite decide_True.
  - apply not_elem_of_cons in Hx as [Hne Hx].
    rewrite decide_False by congruence. by rewrite IH.
Qed.

Section AddDelete.
Context {Percept : Type}.
Variable E : Environment.methods Percept.
Implicit Types (w : world Percept).

Lemma add_thing_new_returns w (o : object) (loc : value) :
  o ∉ things w ->
  exists w',
    Environment.add_thing E (Environment.AThing o) loc w = Ret tt w' /\
    things w' = things w ++ [o] /\
    agents w' = (if isinstance o CAgent then agents w ++ [o] else agents w) /\
    location (store w' o)
    = Some (if bool_decide (loc = VNone)
            then Environment.default_location E o w else loc) /\
    performance (store w' o)
    = (if isinstance o CAgent then Some 0 else performance (store w o)) /\
    (forall x, x <> o -> store w' x = store w x) /\
    stdout w' = stdout w /\ next_oid w' = next_oid w.
Proof.
  intros Hnin. unfold Environment.add_thing. unfold_methods. simpl.
  rewrite bool_decide_eq_false_2 by done.
  destruct (isinstance o CAgent); simpl; eexists; (split; [reflexivity|]);
    simpl; rewrite !fn_lookup_insert; simpl;
    (split_and!; try done; intros x Hx; by rewrite !fn_lookup_insert_ne).
Qed.

(** X5.  A thing that is not in the environment goes in, at the end of
    [things] and, if it is an [Agent], of [agents] too, with its score
    reset; other things' attributes and the output stay as they are.  Its
    location is the one passed or, for [None], what [default_location]
    gives. *)
Theorem add_thing_new w (o : object) (loc : value) :
  o ∉ things w ->
  exists w',
    Environment.add_thing E (Environment.AThing o) loc w = Ret tt w' /\
    things w' = things w ++ [o] /\
    agents w' = (if isinstance o CAgent then agents w ++ [o] else agents w) /\
    location (store w' o)
    = Some (if bool_decide (loc = VNone)
            then Environment.default_location E o w else loc) /\
    performance (store w' o)
    = (if isinstance o CAgent then Some 0 else performance (store w o)) /\
    (forall x, x <> o -> store w' x = store w x) /\
    stdout w' = stdout w /\ next_oid w' = next_oid w.
Proof. apply add_thing_new_returns. Qed.

Lemma delete_thing_present_returns w (t : object) :
  tidy w -> t ∈ things w ->
  exists w',
    Environment.delete_thing t w = Ret tt w' /\
    list_remove t (things w) = Some (things w') /\
    agents w' = default (agents w) (list_remove t (agents w)) /\
    store w' = store w /\ stdout w' = stdout w /\ next_oid w' = next_oid w.
Proof.
  intros (Ht & Ha & Hsub) Hin.
  destruct (list_remove_present t (things w) Hin) as [l Hl].
  unfold Environment.delete_thing. unfold_methods. rewrite Hl. simpl.
  case_bool_decide as Hag; simpl.
  - destruct (list_remove_present t (agents w) Hag) as [l2 Hl2].
    rewrite Hl2. simpl. eexists. split; [reflexivity|]. done.
  - apply list_remove_None in Hag. rewrite Hag. simpl.
    eexists. split; [reflexivity|]. done.
Qed.

(** X6.  Deleting a thing that is in the environment returns without a
    word; the thing is then in neither list, [things] is one shorter,
    every other thing is where it was, and no attribute has changed. *)
Theorem delete_thing_present w (t : object) :
  tidy w -> t ∈ things w ->
  exists w',
    Environment.delete_thing t w = Ret tt w' /\
    (t ∉ things w') /\ (t ∉ agents w') /\
    (forall x, x <> t ->
       (x ∈ things w' <-> x ∈ things w) /\
       (x ∈ agents w' <-> x ∈ agents w)) /\
    length (things w) = S (length (things w')) /\
    tidy w' /\ store w' = store w /\ stdout w' = stdout w.
Proof.
  intros Hw Hin.
  destruct (delete_thing_present_returns w t Hw Hin)
    as (w' & Hret & Hth & Hag & Hs & Ho & _).
  pose proof (delete_thing_tidy w t Hw) as Htidy. rewrite Hret in Htidy.
  destruct Hw as (Ht & Ha & Hsub).
  exists w'. split_and!; try done.
  - by destruct (list_remove_NoDup _ _ _ Hth Ht).
  - rewrite Hag. destruct (list_remove t (agents w)) as [l2|] eqn:Hl2; simpl.
    + by destruct (list_remove_NoDup _ _ _ Hl2 Ha).
    + by apply list_remove_None.
  - intros x Hne. split.
    + split; [by apply (list_remove_elem_of _ _ _ _ Hth)|].
      intros Hx. by apply (list_remove_other _ _ _ _ Hth).
    + rewrite Hag. destruct (list_remove t (agents w)) as [l2|] eqn:Hl2;
        simpl; [|done].
      split; [by apply (list_remove_elem_of _ _ _ _ Hl2)|].
      intros Hx. by apply (list_remove_other _ _ _ _ Hl2).
  - by apply (list_remove_length t).
Qed.

(** X7.  Adding a thing that is not there and deleting it again gives
    back both lists as they were, and prints nothing. *)
Theorem add_then_delete w (o : object) (loc : value) :
  o ∉ things w -> agents w ⊆ things w ->
  exists w1 w2,
    Environment.add_thing E (Environment.AThing o) loc w = Ret tt w1 /\
    Environment.delete_thing o w1 = Ret tt w2 /\
    things w2 = things w /\ agents w2 = agents w /\ stdout w2 = stdout w.
Proof.
  intros Hnin Hsub.
  assert (Hna : o ∉ agents w) by (intros H; by apply Hnin, Hsub).
  destruct (add_thing_new_returns w o loc Hnin)
    as (w1 & Hadd & Hth & Hag & _ & _ & _ & Hout & _).
  exists w1. unfold Environment.delete_thing. unfold_methods.
  rewrite Hth, (list_remove_last o (things w) Hnin). simpl. rewrite Hag.
  destruct (isinstance o CAgent).
  - rewrite bool_decide_eq_true_2 by (apply elem_of_app; right; by left).
    rewrite (list_remove_last o (agents w) Hna). simpl.
    eexists. split_and!; [done | reflexivity | done | done | done].
  - rewrite bool_decide_eq_false_2 by done. simpl.
    eexists. split_and!; [done | reflexivity | done | exact Hag | done].
Qed.

(** X8.  Passing [add_thing] something that is not a [Thing] makes a new
    [Agent] around it and adds that: the new agent is alive, has score 0
    and the location given, and is the last of [things] and of [agents].
    Its program is what was passed if that can be called; if not, the
    fall-back is announced and the program asks the console. *)
Theorem add_thing_program w (program : option (Percept -> action))
    (loc : value) :
  let arg := match program with
             | Some f => Environment.ACallable f
             | None => Environment.AOther
             end in
  let a := Object (next_oid w) CAgent in
  a ∉ things w -> loc <> VNone ->
  exists w',
    Environment.add_thing E arg loc w = Ret tt w' /\
    things w' = things w ++ [a] /\ agents w' = agents w ++ [a] /\
    alive (store w' a) = Some true /\
    performance (store w' a) = Some 0 /\
    location (store w' a) = Some loc /\
    program_slot (store w' a) = Some (default (console w) program) /\
    (forall x, x <> a -> store w' x = store w x) /\
    next_oid w' = S (next_oid w) /\
    stdout w' = stdout w ++
      match program with
      | Some _ => []
      | None => ["Can't find a valid program for Agent, falling back to default."%string]
      end.
Proof.
  intros arg a Hnin Hloc. subst arg.
  rewrite (add_thing_wrap E w program loc). fold a.
  destruct (Agent_init_returns CAgent program w) as (w0 & Hinit & Ht0 & Ha0).
  rewrite Hinit. simpl.
  assert (Hnin0 : a ∉ things w0) by by rewrite Ht0.
  destruct (add_thing_new_returns w0 a loc Hnin0)
    as (w' & Hadd & Hth & Hag & Hl & Hp & Hframe & Hout & Hnext).
  exists w'. rewrite Hth, Hag, Hl, Hp, Hout, Hnext, Ht0, Ha0.
  rewrite (bool_decide_eq_false_2 (loc = VNone)) by done.
  assert (Hw0 : w0 = final (Agent.init CAgent program w)) by by rewrite Hinit.
  assert (Hrest : alive (store w' a) = alive (store w0 a) /\
                  program_slot (store w' a) = program_slot (store w0 a)).
  { clear -Hadd Hnin0. unfold Environment.add_thing in Hadd.
    unfold_methods. simpl in Hadd.
    rewrite bool_decide_eq_false_2 in Hadd by done.
    change (isinstance a CAgent) with true in Hadd. simpl in Hadd.
    injection Hadd as <-. simpl. by rewrite !fn_lookup_insert. }
  destruct Hrest as [-> ->].
  split_and!; try done.
  - rewrite Hw0. unfold Agent.init. unfold_methods.
    destruct program; simpl; by rewrite !fn_lookup_insert.
  - rewrite Hw0. unfold Agent.init. unfold_methods.
    destruct program; simpl; by rewrite !fn_lookup_insert.
  - intros x Hx. rewrite Hframe by done. rewrite Hw0.
    by apply Agent_init_store.
  - rewrite Hw0. unfold Agent.init. unfold_methods.
    destruct program; done.
  - rewrite Hw0. unfold Agent.init. unfold_methods.
    destruct program; simpl; [by rewrite app_nil_r | done].
Qed.
End AddDelete.

Lemma scenario_tidy : tidy (Scenario.park quiet).
Proof.
  unfold tidy. vm_compute things. vm_compute agents.
  split_and!.
  - apply (bool_decide_unpack _). vm_compute. exact I.
  - apply NoDup_singleton.
  - intros x Hx. apply list_elem_of_singleton in Hx as ->. by left.
Qed.

Lemma scenario_placed : placed (Scenario.park quiet).
Proof.
  intros t Ht. vm_compute in Ht.
  repeat (apply elem_of_cons in Ht as [->|Ht]; [vm_compute; by eexists|]).
  by apply elem_of_nil in Ht.
Qed.

Lemma add_thing_new_witness :
  exists w',
    Environment.add_thing Park.cls (Environment.AThing Scenario.dogfood)
      VNone (Scenario.nothing quiet) = Ret tt w' /\
    things w' = [Scenario.dogfood] /\ agents w' = [] /\
    location (store w' Scenario.dogfood) = Some VNone.
Proof.
  destruct (add_thing_new Park.cls (Scenario.nothing quiet) Scenario.dogfood
              VNone) as (w' & Hret & Ht & Ha & Hl & _).
  - simpl. apply not_elem_of_nil.
  - exists w'. split_and!; done.
Defined.

Lemma delete_thing_present_witness :
  exists w',
    Environment.delete_thing Scenario.dogfood (Scenario.park quiet)
      = Ret tt w' /\
    (Scenario.dogfood ∉ things w') /\
    length (things (Scenario.park quiet)) = S (length (things w')).
Proof.
  destruct (delete_thing_present (Scenario.park quiet) Scenario.dogfood)
    as (w' & Hret & Hnin & _ & _ & Hlen & _).
  - apply scenario_tidy.
  - vm_compute. right. by left.
  - exists w'. split_and!; done.
Defined.

Lemma add_then_delete_witness :
  exists w1 w2,
    Environment.add_thing Park.cls (Environment.AThing Scenario.dog) (VInt 1)
      (Scenario.nothing quiet) = Ret tt w1 /\
    Environment.delete_thing Scenario.dog w1 = Ret tt w2 /\
    things w2 = [] /\ agents w2 = [] /\ stdout w2 = [].
Proof.
  apply (add_then_delete Park.cls (Scenario.nothing quiet) Scenario.dog
           (VInt 1)).
  - simpl. apply not_elem_of_nil.
  - simpl. by intros x Hx.
Defined.

Lemma add_thing_program_witness :
  exists w',
    Environment.add_thing Park.cls Environment.AOther (VInt 3)
      (Scenario.nothing quiet) = Ret tt w' /\
    things w' = [Object 0 CAgent] /\ agents w' = [Object 0 CAgent] /\
    stdout w'
    = ["Can't find a valid program for Agent, falling back to default."%string].
Proof.
  destruct (add_thing_program Park.cls (Scenario.nothing quiet) None (VInt 3))
    as (w' & Hret & Ht & Ha & _ & _ & _ & _ & _ & _ & Hout).
  - simpl. apply not_elem_of_nil.
  - discriminate.
  - exists w'. split_and!; done.
Defined.

(** ** [list_things_at] and [some_things_at] *)

Lemma zip_all_eq_agree (xs ys : list Z) :
  Environment.zip_all_eq xs ys = bool_decide (agree xs ys).
Proof.
  unfold Environment.zip_all_eq, agree.
  revert ys. induction xs as [|x xs IH]; intros [|y ys]; simpl;
    try (by rewrite ?bool_decide_eq_true_2).
  rewrite IH. case_bool_decide as Hxy; simpl.
  - subst y. apply bool_decide_ext. split; [by intros -> | by intros [=]].
  - symmetry. apply bool_decide_eq_false_2. intros [=]. done.
Qed.

Section Listing.
Context {Percept : Type}.
Implicit Types (w : world Percept).

Lemma select_integer w (n : Z) (c : class) (l : list object) :
  (forall t, t ∈ l -> is_Some (location (store w t))) ->
  Environment.select w (VInt n) c l
  = inr (filter (fun t => Thing.location_of w t = inr (VInt n)
                          /\ isinstance t c = true) l).
Proof.
  induction l as [|t l IH]; intros Hl; simpl; [done|].
  rewrite IH by (intros x Hx; apply Hl; by right).
  destruct (Hl t) as [v Hv]; [by left|].
  assert (Hloc : Thing.location_of w t = inr v)
    by (unfold Thing.location_of; by rewrite Hv).
  unfold Environment.at_location. rewrite Hloc. simpl.
  rewrite filter_cons, Hloc.
  case_bool_decide as Hb; destruct (isinstance t c); simpl;
    case_decide as Hd; try done.
  - destruct Hd. by rewrite Hb.
  - by destruct Hd.
  - destruct Hd as [Hd _]. destruct Hb. congruence.
  - by destruct Hd.
Qed.

(** X9.  When every thing of the environment has a location, the things
    listed at an integer position for a class are exactly the things of
    [things] that are at that position and are instances of the class,
    in the order of [things]; [some_things_at] says whether there is
    one. *)
Theorem list_things_at_integer w (n : Z) (c : class) :
  placed w ->
  let found := filter (fun t => Thing.location_of w t = inr (VInt n)
                                /\ isinstance t c = true) (things w) in
  Environment.list_things_at w (VInt n) c = inr found /\
  Environment.some_things_at w (VInt n) c
  = inr (negb (bool_decide (found = []))) /\
  (found <> [] <->
   exists t, t ∈ things w /\ Thing.location_of w t = inr (VInt n)
             /\ isinstance t c = true).
Proof.
  intros Hw found.
  assert (Hl : Environment.list_things_at w (VInt n) c = inr found)
    by by apply select_integer.
  split_and!; [done | |].
  - unfold Environment.some_things_at. by rewrite Hl.
  - split.
    + destruct found as [|t r] eqn:Hf; [done|]. intros _.
      assert (Ht : t ∈ found) by (rewrite Hf; by left).
      apply list_elem_of_filter in Ht as [Hp Hin]. by exists t.
    + intros (t & Hin & Hp) Hnil.
      assert (Ht : t ∈ found) by by apply list_elem_of_filter.
      rewrite Hnil in Ht. by apply elem_of_nil in Ht.
Qed.

Lemma select_tuple w (ys : list Z) (c : class) (l : list object) :
  (forall t, t ∈ l -> exists xs, location (store w t) = Some (VTuple xs)) ->
  Environment.select w (VTuple ys) c l
  = inr (filter (fun t => tuple_match w ys t && isinstance t c = true) l).
Proof.
  induction l as [|t l IH]; intros Hl; simpl; [done|].
  rewrite IH by (intros x Hx; apply Hl; by right).
  destruct (Hl t) as [xs Hxs]; [by left|].
  assert (Hloc : Thing.location_of w t = inr (VTuple xs))
    by (unfold Thing.location_of; by rewrite Hxs).
  unfold Environment.at_location. rewrite Hloc. simpl.
  assert (Hm : tuple_match w ys t = bool_decide (agree xs ys))
    by (unfold tuple_match; by rewrite Hloc).
  rewrite filter_cons, Hm, zip_all_eq_agree.
  destruct (bool_decide (agree xs ys) && isinstance t c) eqn:Hb;
    case_decide; done.
Qed.

(** X10.  Tuple locations are compared pair by pair as far as the shorter
    tuple goes: when every thing is at a tuple, the things listed at a
    tuple are those whose tuple agrees with it on their common length and
    that are instances of the class.  The empty tuple agrees with every
    tuple, and two tuples of one length agree only if they are equal. *)
Theorem list_things_at_tuple w (ys : list Z) (c : class) :
  (forall t, t ∈ things w ->
     exists xs, location (store w t) = Some (VTuple xs)) ->
  Environment.list_things_at w (VTuple ys) c
  = inr (filter (fun t => tuple_match w ys t && isinstance t c = true)
                (things w)) /\
  (forall xs, agree xs []) /\
  (forall xs, length xs = length ys -> agree xs ys -> xs = ys).
Proof.
  intros Hw. split_and!.
  - by apply select_tuple.
  - intros xs. unfold agree. by destruct xs.
  - intros xs Hlen H. unfold agree in H.
    rewrite <- Hlen, firstn_all in H. rewrite Hlen, firstn_all in H. done.
Qed.

(** X11.  [list_things_at] fails on the first thing it cannot compare: a
    thing without a location is an [AttributeError]; and it is a
    [TypeError] when the location asked for is [None], or is a tuple while
    the first thing is at an integer or at [None]. *)
Theorem list_things_at_raises w (loc : value) (c : class) (t : object)
    (l : list object) :
  things w = t :: l ->
  match Thing.location_of w t with
  | inl e =>
      e = AttributeError /\ Environment.list_things_at w loc c = inl e
  | inr v =>
      loc = VNone \/
      ((exists ys, loc = VTuple ys) /\ (v = VNone \/ exists z, v = VInt z)) ->
      Environment.list_things_at w loc c = inl TypeError
  end.
Proof.
  intros Ht. unfold Environment.list_things_at. rewrite Ht. simpl.
  unfold Environment.at_location.
  destruct (Thing.location_of w t) as [e|v] eqn:Hl.
  - split; [|done]. unfold Thing.location_of in Hl.
    destruct (location (store w t)); [done|].
    destruct (class_of t); congruence.
  - intros [->|[[ys ->] [->|[z ->]]]]; simpl; [by destruct v | done | done].
Qed.
End Listing.

Lemma list_things_at_integer_witness :
  Environment.list_things_at (Scenario.park quiet) (VInt 5) CFood
  = inr [Scenario.dogfood].
Proof.
  destruct (list_things_at_integer (Scenario.park quiet) 5 CFood
              scenario_placed) as [H _].
  rewrite H. vm_compute. reflexivity.
Defined.

Lemma list_things_at_tuple_witness :
  Environment.list_things_at grid (VTuple [1]) CThing
  = inr [Object 0 CFood; Object 1 CWater].
Proof.
  destruct (list_things_at_tuple grid [1] CThing) as [H _].
  - intros t Ht. vm_compute in Ht.
    repeat (apply elem_of_cons in Ht as [->|Ht]; [vm_compute; by eexists|]).
    by apply elem_of_nil in Ht.
  - rewrite H. vm_compute. reflexivity.
Defined.

Lemma list_things_at_raises_witness :
  Environment.list_things_at Scenario.stray VNone CThing = inl TypeError /\
  Environment.list_things_at (Scenario.park quiet) (VTuple [1; 2]) CFood
  = inl TypeError.
Proof.
  split.
  - assert (Ht : things Scenario.stray = [Scenario.dog])
      by (vm_compute; reflexivity).
    pose proof (list_things_at_raises Scenario.stray VNone CThing
                  Scenario.dog [] Ht) as H.
    assert (Hl : Thing.location_of Scenario.stray Scenario.dog = inr VNone)
      by (vm_compute; reflexivity).
    rewrite Hl in H. apply H. by left.
  - assert (Ht : things (Scenario.park quiet)
                 = [Scenario.dog; Scenario.dogfood; Scenario.water])
      by (vm_compute; reflexivity).
    pose proof (list_things_at_raises (Scenario.park quiet) (VTuple [1; 2])
                  CFood Scenario.dog [Scenario.dogfood; Scenario.water] Ht)
      as H.
    assert (Hl : Thing.location_of (Scenario.park quiet) Scenario.dog
                 = inr (VInt 1)) by (vm_compute; reflexivity).
    rewrite Hl in H. apply H.
    right. split; [by eexists | right; by eexists].
Defined.

(** ** Actions in the park *)

Lemma append_cons (c : Ascii.ascii) (s t : string) :
  (String c s +:+ t)%string = String c (s +:+ t).
Proof. reflexivity. Qed.

Lemma append_empty (t : string) : (EmptyString +:+ t)%string = t.
Proof. reflexivity. Qed.

Lemma substring_prefix (s t : string) :
  String.substring 0 (String.length s) (s +:+ t) = s.
Proof.
  induction s as [|c s IH]; [by destruct t|].
  rewrite append_cons. simpl. by rewrite IH.
Qed.

Lemma length_snoc (s : string) (c : Ascii.ascii) :
  String.length (s +:+ String c EmptyString) = S (String.length s).
Proof.
  induction s as [|c' s IH]; [done|].
  rewrite append_cons. simpl. by rewrite IH.
Qed.

(** [str(thing)[1:-1]] is the thing's name. *)
Lemma slice_repr {Percept} (w : world Percept) (t : object) :
  slice_1_m1 (Thing.repr w t) = Thing.label w t.
Proof.
  unfold slice_1_m1, Thing.repr. generalize (Thing.label w t). intros s.
  rewrite append_cons, append_empty.
  cbn [String.length String.substring].
  rewrite length_snoc. cbn [Nat.sub]. rewrite Nat.sub_0_r.
  apply substring_prefix.
Qed.

Lemma program_no_edible (percepts : list object) :
  (forall p, p ∈ percepts -> edible p = false) ->
  program percepts = "move down"%string.
Proof.
  induction percepts as [|p l IH]; intros Hl; simpl; [done|].
  assert (Hp : edible p = false) by (apply Hl; by left).
  unfold edible in Hp. apply orb_false_iff in Hp as [-> ->].
  apply IH. intros x Hx. apply Hl. by right.
Qed.

Section Consume.
Implicit Types (w : world (list object)).
Variable agent : object.
Hypothesis agent_dog : class_of agent = CBlindDog.

Lemma edible_not_agent w (item : object) :
  agents_are_agents w -> edible item = true -> item ∉ agents w.
Proof.
  intros Hw He Hin. apply Hw in Hin. unfold edible, isinstance in *.
  destruct (class_of item); done.
Qed.

(** What is left of an action once the thing to consume is chosen: the
    line is printed and the thing deleted. *)
Lemma consume_item w (item : object) (line : string) :
  tidy w -> agents_are_agents w -> item ∈ things w -> edible item = true ->
  exists w',
    (print line ;; Environment.delete_thing item) w = Ret tt w' /\
    list_remove item (things w) = Some (things w') /\
    agents w' = agents w /\ store w' = store w /\
    stdout w' = stdout w ++ [line].
Proof.
  intros Hw Hag Hin He. unfold bind, print, modify.
  set (w1 := with_stdout (stdout w ++ [line]) w).
  destruct (delete_thing_present_returns w1 item Hw Hin)
    as (w' & Hret & Hth & Ha & Hs & Ho & _).
  exists w'. rewrite Hret. split_and!; try done.
  rewrite Ha. simpl.
  pose proof (edible_not_agent w item Hag He) as Hnin.
  apply list_remove_None in Hnin. by rewrite Hnin.
Qed.

Lemma eat_at w (n : Z) :
  tidy w -> placed w -> agents_are_agents w ->
  Thing.location_of w agent = inr (VInt n) ->
  match filter (fun t => Thing.location_of w t = inr (VInt n)
                         /\ isinstance t CFood = true) (things w) with
  | [] => Park.execute_action agent "eat" w = Ret tt w
  | item :: _ =>
      exists w',
        Park.execute_action agent "eat" w = Ret tt w' /\
        list_remove item (things w) = Some (things w') /\
        agents w' = agents w /\ store w' = store w /\
        stdout w' = stdout w ++
          [Thing.label w agent +:+ " ate " +:+ Thing.label w item
           +:+ " at location: " +:+ pretty n]%string
  end.
Proof.
  intros Hw Hpl Hag Hloc.
  pose proof (select_integer w n CFood (things w) Hpl) as Hsel.
  fold (Environment.list_things_at w (VInt n) CFood) in Hsel.
  destruct (filter _ (things w)) as [|item rest] eqn:Hf;
    unfold Park.execute_action;
    (destruct (decide (@eq action "eat" "move down")%string) as [|_]; [done|]);
    (destruct (decide (@eq action "eat" "eat")%string) as [_|]; [|done]);
    cbv beta iota;
    unfold bind at 1; unfold query at 1; rewrite Hloc; cbv beta iota;
    unfold bind at 1; unfold query at 1; rewrite Hsel; cbv beta iota.
  { done. }
  assert (Hin : item ∈ item :: rest) by by left.
  rewrite <- Hf in Hin. apply list_elem_of_filter in Hin as [[_ Hfood] Hin].
  unfold BlindDog.eat. rewrite agent_dog.
  unfold bind at 1. unfold ret at 1. rewrite Hfood. cbv beta iota.
  unfold bind at 1. unfold get at 1. cbv beta iota.
  unfold bind at 1. unfold query at 1. rewrite Hloc. cbv beta iota.
  rewrite !slice_repr. apply consume_item; try done.
  unfold edible. by rewrite Hfood.
Qed.


Lemma drink_at w (n : Z) :
  tidy w -> placed w -> agents_are_agents w ->
  Thing.location_of w agent = inr (VInt n) ->
  match filter (fun t => Thing.location_of w t = inr (VInt n)
                         /\ isinstance t CWater = true) (things w) with
  | [] => Park.execute_action agent "drink" w = Ret tt w
  | item :: _ =>
      exists w',
        Park.execute_action agent "drink" w = Ret tt w' /\
        list_remove item (things w) = Some (things w') /\
        agents w' = agents w /\ store w' = store w /\
        stdout w' = stdout w ++
          [Thing.label w agent +:+ " drank " +:+ Thing.label w item
           +:+ " at location: " +:+ pretty n]%string
  end.
Proof.
  intros Hw Hpl Hag Hloc.
  pose proof (select_integer w n CWater (things w) Hpl) as Hsel.
  fold (Environment.list_things_at w (VInt n) CWater) in Hsel.
  destruct (filter _ (things w)) as [|item rest] eqn:Hf;
    unfold Park.execute_action;
    (destruct (decide (@eq action "drink" "move down")%string) as [|_]; [done|]);
    (destruct (decide (@eq action "drink" "eat")%string) as [|_]; [done|]);
    (destruct (decide (@eq action "drink" "drink")%string) as [_|]; [|done]);
    cbv beta iota;
    unfold bind at 1; unfold query at 1; rewrite Hloc; cbv beta iota;
    unfold bind at 1; unfold query at 1; rewrite Hsel; cbv beta iota.
  { done. }
  assert (Hin : item ∈ item :: rest) by by left.
  rewrite <- Hf in Hin. apply list_elem_of_filter in Hin as [[_ Hwater] Hin].
  unfold BlindDog.drink. rewrite agent_dog.
  unfold bind at 1. unfold ret at 1. rewrite Hwater. cbv beta iota.
  unfold bind at 1. unfold get at 1. cbv beta iota.
  unfold bind at 1. unfold query at 1. rewrite Hloc. cbv beta iota.
  rewrite !slice_repr. apply consume_item; try done.
  unfold edible. by rewrite Hwater, orb_true_r.
Qed.

End Consume.


(** ** What a tick of the park leaves alone *)

Section Undisturbed.
Implicit Types (w : world (list object)).

Lemma undisturbed_refl w : undisturbed w w.
Proof. split; try done. intros x Hx. by left. Qed.

Lemma undisturbed_trans w1 w2 w3 :
  undisturbed w1 w2 -> undisturbed w2 w3 -> undisturbed w1 w3.
Proof.
  intros [Ha1 Hn1 Ho1 Hl1 Hp1 Hg1 Hm1] [Ha2 Hn2 Ho2 Hl2 Hp2 Hg2 Hm2].
  split.
  - by rewrite Ha2.
  - intros x Hx. by apply Hn1, Hn2.
  - intros x Hx. destruct (Ho1 x Hx) as [Hx2|He]; [|by right].
    by apply Ho2.
  - intros x. by rewrite Hl2.
  - intros x. by rewrite Hp2.
  - intros x. by rewrite Hg2.
  - intros x. by rewrite Hm2.
Qed.

Lemma effect_undisturbed agent a w w' :
  agents_are_agents w -> effect agent a w w' -> undisturbed w w'.
Proof.
  intros Hag [Hs Ht Ha|k _ _ _ Hs Ht Ha|item w1 _ Hi Hs Ht Ha ->].
  - split; rewrite ?Hs, ?Ht; try done. intros x Hx. by left.
  - split; rewrite ?Ht; try done.
    + intros x Hx. by left.
    + intros x. rewrite Hs. destruct (decide (agent = x)) as [->|Hne];
        [by rewrite fn_lookup_insert | by rewrite fn_lookup_insert_ne].
    + intros x. rewrite Hs. destruct (decide (agent = x)) as [->|Hne];
        [by rewrite fn_lookup_insert | by rewrite fn_lookup_insert_ne].
    + intros x. rewrite Hs. destruct (decide (agent = x)) as [->|Hne];
        [by rewrite fn_lookup_insert | by rewrite fn_lookup_insert_ne].
    + intros x. rewrite Hs. destruct (decide (agent = x)) as [->|Hne];
        [by rewrite fn_lookup_insert | by rewrite fn_lookup_insert_ne].
  - assert (He : edible item = true) by done.
    assert (Hnin : item ∉ agents w1).
    { rewrite Ha. intros Hin. apply Hag in Hin. unfold edible, isinstance in *.
      destruct (class_of item); done. }
    split; rewrite ?delete_thing_store, ?Hs; try done.
    + by rewrite delete_thing_agents.
    + intros x Hx. rewrite <- Ht.
      destruct (delete_thing_lists w1 item _ eq_refl) as [Hth _].
      rewrite Hth in Hx.
      destruct (list_remove item (things w1)) as [l|] eqn:Hrm; simpl in Hx;
        [|done].
      by apply (list_remove_elem_of _ _ _ _ Hrm).
    + intros x Hx. destruct (decide (x = item)) as [->|Hne]; [by right|].
      left. apply delete_thing_keeps; [done | by rewrite Ht].
Qed.

Lemma undisturbed_agents w w' :
  undisturbed w w' -> agents_are_agents w -> agents_are_agents w'.
Proof. intros [Ha _ _ _ _ _ _] Hw. unfold agents_are_agents. by rewrite Ha. Qed.

Lemma act_loop_undisturbed (actions : list action) (i : nat) w :
  agents_are_agents w ->
  undisturbed w (final (Environment.act_loop Park.cls i actions w)).
Proof.
  revert i w. induction actions as [|a actions IH]; intros i w Hw; simpl.
  - apply undisturbed_refl.
  - unfold_methods. destruct (agents w !! i) as [agent|]; simpl;
      [|apply undisturbed_refl].
    pose proof (effect_undisturbed agent a w _ Hw
                  (execute_action_effect agent a w)) as Hu.
    destruct (Park.execute_action agent a w) as [[] w'|e w']; simpl in *;
      [|done].
    apply (undisturbed_trans _ w'); [done|].
    apply IH. by apply (undisturbed_agents w).
Qed.

Lemma step_undisturbed w :
  agents_are_agents w -> undisturbed w (final (Environment.step Park.cls w)).
Proof.
  intros Hw. unfold Environment.step. unfold_methods. simpl.
  destruct (Park.is_done w); simpl; [apply undisturbed_refl|].
  destruct (Environment.decide_all Park.cls w (agents w)) as [e|actions];
    simpl; [apply undisturbed_refl|].
  pose proof (act_loop_undisturbed actions 0 w Hw) as Hu.
  by destruct (Environment.act_loop Park.cls 0 actions w) as [[] w'|e w'].
Qed.

Lemma run_undisturbed (n : nat) w :
  agents_are_agents w -> undisturbed w (final (Environment.run Park.cls n w)).
Proof.
  revert w. induction n as [|n IH]; intros w Hw; simpl.
  - apply undisturbed_refl.
  - unfold_methods. simpl.
    destruct (Park.is_done w); simpl; [apply undisturbed_refl|].
    pose proof (step_undisturbed w Hw) as Hu.
    destruct (Environment.step Park.cls w) as [[] w'|e w']; simpl in *;
      [|done].
    apply (undisturbed_trans _ w'); [done|].
    apply IH. by apply (undisturbed_agents w).
Qed.

(** X15.  A step of a park, and so a run of any length, never changes the
    list of agents, never adds a thing, takes out of [things] nothing but
    [Food] and [Water], and leaves every object's [alive] flag, score,
    program and name as they were: nothing in a park ever dies. *)
Theorem park_step_undisturbed w (n : nat) :
  agents_are_agents w ->
  undisturbed w (final (Environment.step Park.cls w)) /\
  undisturbed w (final (Environment.run Park.cls n w)).
Proof.
  intros Hw. split; [by apply step_undisturbed | by apply run_undisturbed].
Qed.
End Undisturbed.

Lemma park_step_undisturbed_witness :
  undisturbed (Scenario.park quiet)
    (final (Environment.step Park.cls (Scenario.park quiet))) /\
  undisturbed (Scenario.park quiet)
    (final (Environment.run Park.cls 5 (Scenario.park quiet))).
Proof.
  apply (park_step_undisturbed (Scenario.park quiet) 5).
  apply scenario_agents_are_agents.
Defined.

(** ** The dog alone in the park *)

Lemma program_find_edible (percepts : list object) :
  program percepts =
    match List.find edible percepts with
    | Some p => if isinstance p CFood then "eat"%string else "drink"%string
    | None => "move down"%string
    end.
Proof.
  induction percepts as [|[i c] l IH]; [done|].
  destruct c; first [reflexivity | exact IH].
Qed.

(** The first edible thing of the things at a place is the first thing of
    its kind at that place. *)
Lemma find_filter_head (Q : object -> Prop) `{!forall t, Decision (Q t)}
    (R : object -> bool) (l : list object) (item : object) :
  (forall t, R t = true -> edible t = true) ->
  List.find edible (filter Q l) = Some item -> R item = true ->
  exists rest, filter (fun t => Q t /\ R t = true) l = item :: rest.
Proof.
  intros HR. induction l as [|t l IH]; intros Hfind Hitem; [done|].
  rewrite filter_cons in Hfind. rewrite filter_cons.
  destruct (decide (Q t)) as [Hq|Hq].
  - simpl in Hfind. destruct (edible t) eqn:He.
    + injection Hfind as ->. rewrite decide_True by done. by eexists.
    + rewrite decide_False; [by apply IH|].
      intros [_ Hr]. apply HR in Hr. congruence.
  - rewrite decide_False by (intros [? _]; done). by apply IH.
Qed.

Section Alone.
Implicit Types (w : world (list object)).
Variable d : object.

Lemma move_down_returns w (n : Z) :
  class_of d = CBlindDog -> location (store w d) = Some (VInt n) ->
  Park.execute_action d "move down" w
  = Ret tt (with_store
              (<[d := with_location (VInt (n + 1)) (store w d)]> (store w))
              (with_stdout
                 (stdout w ++ [Thing.label w d +:+ " decided to move down"
                               +:+ " at location: " +:+ pretty n]%string) w)).
Proof.
  intros Hc Hn.
  assert (Hl : Thing.location_of w d = inr (VInt n))
    by (unfold Thing.location_of; by rewrite Hn).
  unfold Park.execute_action.
  destruct (decide (@eq action "move down" "move down")%string) as [_|];
    [|done].
  unfold_methods. rewrite Hl. simpl. rewrite slice_repr.
  unfold BlindDog.movedown. rewrite Hc. unfold_methods.
  rewrite (location_of_ext _ w) by done. rewrite Hl. done.
Qed.

Lemma lone_dog_decides w (n : Z) :
  lone_dog d w n ->
  Environment.decide_all Park.cls w (agents w)
  = inr [program (filter (fun t => Thing.location_of w t = inr (VInt n))
                         (things w))].
Proof.
  intros [Hc Ha Hin Hal Hpr Hpl Hn Hnd]. rewrite Ha. simpl.
  unfold Environment.decide_one, Thing.alive_of, Thing.program_of.
  rewrite Hal, Hpr. simpl. unfold Park.percept, Thing.location_of.
  rewrite Hn. unfold Environment.list_things_at.
  by rewrite (select_at_integer w n (things w) Hpl).
Qed.

Lemma lone_dog_step w (n : Z) :
  lone_dog d w n ->
  Environment.step Park.cls w
  = Park.execute_action d
      (program (filter (fun t => Thing.location_of w t = inr (VInt n))
                       (things w))) w.
Proof.
  intros Hw. pose proof (lone_dog_decides w n Hw) as Hdec.
  destruct Hw as [Hc Ha Hin Hal Hpr Hpl Hn Hnd].
  unfold Environment.step. unfold bind at 1. unfold get. simpl.
  rewrite Hnd. unfold bind at 1. unfold query. rewrite Hdec.
  simpl. unfold bind, get, ret. rewrite Ha. simpl.
  by destruct (Park.execute_action d _ w) as [[] w'|e w'].
Qed.

(** X16.  When a live blind dog running the dog's program at an integer
    position is the park's only agent and the park is not done, a step is
    exactly the one action the program decides for the things at the
    dog's position, the dog among them. *)
Theorem step_of_the_lone_dog w (n : Z) :
  lone_dog d w n ->
  Environment.step Park.cls w
  = Park.execute_action d
      (program (filter (fun t => Thing.location_of w t = inr (VInt n))
                       (things w))) w.
Proof. apply lone_dog_step. Qed.

(** With nothing edible under it the dog moves one position down, and
    is again alone as before. *)
Lemma lone_dog_moves w (n : Z) :
  lone_dog d w n -> clear_at w n ->
  exists w',
    Environment.step Park.cls w = Ret tt w' /\
    lone_dog d w' (n + 1) /\ things w' = things w /\
    (forall t, t <> d -> store w' t = store w t) /\
    stdout w' = stdout w ++ [Thing.label w d +:+ " decided to move down"
                             +:+ " at location: " +:+ pretty n]%string.
Proof.
  intros Hw Hclear. rewrite (lone_dog_step w n Hw).
  destruct Hw as [Hc Ha Hin Hal Hpr Hpl Hn Hnd].
  rewrite program_no_edible.
  2:{ intros p Hp. apply list_elem_of_filter in Hp as [Hp Hpin].
      by apply Hclear. }
  rewrite (move_down_returns w n Hc Hn). eexists. split; [reflexivity|].
  split_and!; try done.
  - split; simpl; try done.
    + by rewrite fn_lookup_insert.
    + by rewrite fn_lookup_insert.
    + intros t Ht. simpl. destruct (decide (d = t)) as [->|Hne].
      * rewrite fn_lookup_insert. by eexists.
      * rewrite fn_lookup_insert_ne by done. by apply Hpl.
    + by rewrite fn_lookup_insert.
    + rewrite <- Hnd. unfold Park.is_done. simpl. rewrite Ha. simpl.
      unfold Thing.is_alive. simpl. by rewrite fn_lookup_insert.
  - intros t Ht. simpl. by rewrite fn_lookup_insert_ne.
Qed.

Lemma clear_at_after_move w w' (n m : Z) :
  class_of d = CBlindDog -> things w' = things w ->
  (forall t, t <> d -> store w' t = store w t) ->
  clear_at w m -> clear_at w' m.
Proof.
  intros Hc Ht Hs Hclear t Hin Hloc.
  destruct (decide (t = d)) as [->|Hne].
  - unfold edible, isinstance. by rewrite Hc.
  - apply Hclear; [by rewrite <- Ht|].
    rewrite <- Hloc. unfold Thing.location_of. by rewrite Hs.
Qed.

Lemma lone_dog_walks (k : nat) w (n : Z) :
  lone_dog d w n ->
  (forall i : nat, (i < k)%nat -> clear_at w (n + Z.of_nat i)) ->
  lone_dog d (ticks Park.cls k w) (n + Z.of_nat k) /\
  things (ticks Park.cls k w) = things w /\
  (forall t, t <> d -> store (ticks Park.cls k w) t = store w t) /\
  length (stdout (ticks Park.cls k w)) = (length (stdout w) + k)%nat.
Proof.
  revert w n. induction k as [|k IH]; intros w n Hw Hclear.
  - simpl. rewrite Z.add_0_r, Nat.add_0_r. done.
  - assert (Hc0 : clear_at w n).
    { specialize (Hclear 0%nat). rewrite Z.add_0_r in Hclear.
      apply Hclear. lia. }
    destruct (lone_dog_moves w n Hw Hc0) as (w1 & Hstep & Hw1 & Ht & Hs & Ho).
    simpl. rewrite Hstep. simpl.
    destruct (IH w1 (n + 1) Hw1) as (Hl & Hth & Hst & Hout).
    { intros i Hi.
      apply (clear_at_after_move w w1 n); [by destruct Hw | done | done |].
      replace (n + 1 + Z.of_nat i) with (n + Z.of_nat (S i)) by lia.
      apply Hclear. lia. }
    split_and!.
    + replace (n + Z.of_nat (S k)) with (n + 1 + Z.of_nat k) by lia. done.
    + by rewrite Hth.
    + intros t Hne. by rewrite Hst, Hs.
    + rewrite Hout, Ho, length_app. simpl. lia.
Qed.


End Alone.

(** ** The notebook's park as an instance *)

Lemma scenario_lone : lone_dog Scenario.dog (Scenario.park quiet) 1.
Proof.
  split; try (vm_compute; reflexivity).
  - vm_compute. by left.
  - apply scenario_placed.
Qed.

Lemma scenario_clear (i : nat) :
  (i < 4)%nat -> clear_at (Scenario.park quiet) (1 + Z.of_nat i).
Proof.
  intros Hi t Ht Hloc.
  enumerate Ht ltac:(first
    [ reflexivity
    | match type of Hloc with
      | ?l = _ => let v := eval vm_compute in l in change l with v in Hloc
      end; injection Hloc; lia ]).
Qed.

Lemma scenario_lone_at_food :
  lone_dog Scenario.dog (ticks Park.cls 4 (Scenario.park quiet)) 5.
Proof.
  apply (lone_dog_walks Scenario.dog 4 (Scenario.park quiet) 1 scenario_lone).
  apply scenario_clear.
Qed.

Lemma scenario_tidy_at_food : tidy (ticks Park.cls 4 (Scenario.park quiet)).
Proof. tidy_by_computing. Qed.

Lemma scenario_tidy_at_water : tidy (ticks Park.cls 7 (Scenario.park quiet)).
Proof. tidy_by_computing. Qed.

Lemma scenario_placed_at (k : nat) :
  (k <= 7)%nat -> placed (ticks Park.cls k (Scenario.park quiet)).
Proof.
  intros Hk t Ht.
  do 8 (destruct k as [|k];
        [enumerate Ht ltac:(vm_compute; eexists; reflexivity)|]).
  lia.
Qed.

Lemma scenario_agents_at (k : nat) :
  (k <= 7)%nat -> agents_are_agents (ticks Park.cls k (Scenario.park quiet)).
Proof.
  intros Hk t Ht.
  do 8 (destruct k as [|k]; [enumerate Ht ltac:(reflexivity)|]).
  lia.
Qed.




Lemma step_of_the_lone_dog_witness :
  Environment.step Park.cls (Scenario.park quiet)
  = Park.execute_action Scenario.dog
      (program (filter (fun t => Thing.location_of (Scenario.park quiet) t
                                 = inr (VInt 1))
                       (things (Scenario.park quiet))))
      (Scenario.park quiet).
Proof.
  apply (step_of_the_lone_dog Scenario.dog (Scenario.park quiet) 1).
  apply scenario_lone.
Defined.


